(** * Grid<T>: a shallow embedding of
      full_code/c12_code/10_FriendFunctionTemplates/Grid.h

    The class template [Grid<T>] stores a table of optional cells in a
    [std::vector<std::vector<std::optional<T>>>] next to the two [size_t]
    members [mWidth] and [mHeight].  The embedding keeps that shape:

    - [size_t] is [N]; the code only compares coordinates with the
      dimensions and increments a loop index that stays below a [size_t]
      bound, so no wrap-around is ever reached;
    - a [std::vector] is a [list], indexed with stdpp's lookup; the
      unchecked [operator[]] is undefined behaviour out of range, which
      the embedding records as the outcome [Undefined];
    - [std::optional<T>] is [option T];
    - a thrown exception is the outcome [Throw];
    - vectors have no capacity limit: running out of memory is outside
      the model. *)

From stdpp Require Import base numbers option list strings pretty gmap.

Local Open Scope N_scope.

(** ** Outcomes of a call *)

(** The exception classes of <stdexcept>, with their [what()] string. *)
Inductive exception_class : Set :=
  | logic_error | domain_error | invalid_argument | length_error
  | out_of_range | runtime_error | range_error | overflow_error
  | underflow_error.

Record exception : Set := StdExcept { exn_class : exception_class; what : string }.

Inductive outcome (A : Type) : Type :=
  | Ok (a : A)
  | Throw (e : exception)
  | Undefined.
Arguments Ok {A} a.
Arguments Throw {A} e.
Arguments Undefined {A}.

#[global] Instance outcome_ret : MRet outcome := λ A a, Ok a.
#[global] Instance outcome_bind : MBind outcome := λ A B f m,
  match m with
  | Ok a => f a
  | Throw e => Throw e
  | Undefined => Undefined
  end.

Definition succeeds {A} (m : outcome A) : Prop := ∃ a, m = Ok a.
Definition throws {A} (m : outcome A) : Prop := ∃ e, m = Throw e.

(** [v[i]] on a vector: no bounds check. *)
Definition vec_index {A} (v : list A) (i : N) : outcome A :=
  match v !! N.to_nat i with
  | Some a => Ok a
  | None => Undefined
  end.

(** [for (size_t i = from; i < from + n; ++i) body(i)], threading the
    mutable state [s] of the enclosing scope through the iterations. *)
Fixpoint for_loop {S} (n : nat) (i : N) (body : N → S → outcome S) (s : S)
  : outcome S :=
  match n with
  | O => Ok s
  | Datatypes.S n' => s' ← body i s; for_loop n' (N.succ i) body s'
  end.

(** [for (size_t i = 0; i < bound; ++i) body(i)]. *)
Definition for_upto {S} (bound : N) (body : N → S → outcome S) (s : S)
  : outcome S :=
  for_loop (N.to_nat bound) 0 body s.

(** ** The class template *)

Section Grid.
Context {T : Type}.

(** private data members *)
Record Grid : Type := mkGrid {
  mCells : list (list (option T));
  mWidth : N;
  mHeight : N
}.

(** A reference to one [std::optional<T>] slot of a grid's table: the
    column and the row it designates. *)
Record cell_ref : Set := CellRef { ref_x : N; ref_y : N }.

Definition kDefaultWidth : N := 10.
Definition kDefaultHeight : N := 10.

Definition getHeight (g : Grid) : N := mHeight g.
Definition getWidth (g : Grid) : N := mWidth g.

(** [Grid(size_t width, size_t height)]: [mCells] starts as the empty
    vector, is resized to [mWidth] empty columns, and every column is
    resized to [mHeight] disengaged optionals. *)
Definition Grid_ctor (width height : N) : Grid :=
  let cells := resize (N.to_nat width) [] [] in
  {| mCells := (λ column, resize (N.to_nat height) None column) <$> cells;
     mWidth := width;
     mHeight := height |}.

(** [Grid()] with both default arguments. *)
Definition Grid_default : Grid := Grid_ctor kDefaultWidth kDefaultHeight.

(** [cells[x][y]] on the table: two unchecked vector accesses. *)
Definition table_index (cells : list (list (option T))) (x y : N)
  : outcome (option T) :=
  column ← vec_index cells x; vec_index column y.

Definition verifyCoordinate (g : Grid) (x y : N) : outcome unit :=
  if (mWidth g <=? x) || (mHeight g <=? y)
  then Throw (StdExcept out_of_range "")
  else Ok ().

(** [const std::optional<T>& at(size_t x, size_t y) const] *)
Definition at_const (g : Grid) (x y : N) : outcome cell_ref :=
  _ ← verifyCoordinate g x y;
  _ ← table_index (mCells g) x y;
  Ok (CellRef x y).

(** [std::optional<T>& at(size_t x, size_t y)]: the const overload,
    with the constness of the returned reference cast away. *)
Definition at_ (g : Grid) (x y : N) : outcome cell_ref :=
  at_const g x y.

(** The table slot at column [x], row [y], when there is one. *)
Definition cell (g : Grid) (x y : N) : option (option T) :=
  column ← mCells g !! N.to_nat x; column !! N.to_nat y.

(** Reading and assigning through a reference obtained from [at]. *)
Definition load (g : Grid) (r : cell_ref) : option (option T) :=
  cell g (ref_x r) (ref_y r).

Definition store (g : Grid) (r : cell_ref) (v : option T) : Grid :=
  {| mCells := alter (λ column, <[N.to_nat (ref_y r) := v]> column)
                     (N.to_nat (ref_x r)) (mCells g);
     mWidth := mWidth g;
     mHeight := mHeight g |}.

(** The statement [g.at(x, y) = v;]. *)
Definition assign_at (g : Grid) (x y : N) (v : option T) : outcome Grid :=
  r ← at_ g x y; Ok (store g r v).

(** Defaulted copy constructor: member-wise copy; the vector member is
    copied element by element. *)
Definition Grid_copy (src : Grid) : Grid :=
  {| mCells := mCells src; mWidth := mWidth src; mHeight := mHeight src |}.

(** Defaulted move constructor: member-wise move.  The new object takes
    over the vector, whose source is left empty; moving a [size_t]
    copies it.  The pair is (new object, source afterwards). *)
Definition Grid_move (src : Grid) : Grid * Grid :=
  ({| mCells := mCells src; mWidth := mWidth src; mHeight := mHeight src |},
   {| mCells := []; mWidth := mWidth src; mHeight := mHeight src |}).

(** The data-model invariant: [mWidth] columns of [mHeight] rows. *)
Definition Grid_inv (g : Grid) : Prop :=
  length (mCells g) = N.to_nat (mWidth g) ∧
  Forall (λ column, length column = N.to_nat (mHeight g)) (mCells g).

Variable T_add : T → T → T.

(** [Grid<T> operator+(const Grid<T>& lhs, const Grid<T>& rhs)] *)
Definition operator_plus (lhs rhs : Grid) : outcome Grid :=
  let minWidth := N.min (getWidth lhs) (getWidth rhs) in
  let minHeight := N.min (getHeight lhs) (getHeight rhs) in
  let result := Grid_ctor minWidth minHeight in
  for_upto minHeight (λ y result,
    for_upto minWidth (λ x result,
      leftElement ← table_index (mCells lhs) x y;
      rightElement ← table_index (mCells rhs) x y;
      match leftElement, rightElement with
      | Some l, Some r => assign_at result x y (Some (T_add l r))
      | _, _ => Ok result
      end) result) result.

End Grid.

Arguments Grid T : clear implicits.

(** ** What the specification says [at] does

    "Fails with an out-of-range error when x >= width or y >= height.  On
    success, returns a reference to the cell's optional slot."  This
    definition follows those words; it is compared with the code below. *)
Definition at_spec {T} (g : Grid T) (x y : N) : outcome cell_ref :=
  if decide (getWidth g ≤ x ∨ getHeight g ≤ y)
  then Throw (StdExcept out_of_range "")
  else Ok (CellRef x y).

(** ** Grid objects of a client program

    Client code holds grids in named variables and mutates them in place
    through the references [at] hands out.  [objects] maps each variable
    to the value it currently holds; a statement returns its outcome
    together with the objects as they are afterwards.  A statement that
    names a variable holding no grid is not a program; its outcome is
    [Undefined]. *)

Section Objects.
Context {T : Type}.

Abbreviation objects := (gmap string (Grid T)).

(** A reference into the table of the grid held by a variable. *)
Record obj_ref : Set := ObjRef { ref_obj : string; ref_cell : cell_ref }.

(** [Grid<T> a(width, height);] *)
Definition decl_ctor (a : string) (width height : N) (σ : objects)
  : outcome () * objects :=
  (Ok (), <[a := Grid_ctor width height]> σ).

(** [a.at(x, y)] on a non-const grid *)
Definition call_at (a : string) (x y : N) (σ : objects)
  : outcome obj_ref * objects :=
  match σ !! a with
  | Some g => (r ← at_ g x y; Ok (ObjRef a r), σ)
  | None => (Undefined, σ)
  end.

(** [std::as_const(a).at(x, y)] *)
Definition call_at_const (a : string) (x y : N) (σ : objects)
  : outcome obj_ref * objects :=
  match σ !! a with
  | Some g => (r ← at_const g x y; Ok (ObjRef a r), σ)
  | None => (Undefined, σ)
  end.

(** Reading through a reference. *)
Definition deref (r : obj_ref) (σ : objects) : option (option T) :=
  g ← σ !! ref_obj r; load g (ref_cell r).

(** [r = v;] for a reference [r] to a cell *)
Definition assign_ref (r : obj_ref) (v : option T) (σ : objects)
  : outcome () * objects :=
  match σ !! ref_obj r with
  | Some g => (Ok (), <[ref_obj r := store g (ref_cell r) v]> σ)
  | None => (Undefined, σ)
  end.

(** [a.at(x, y) = v;] *)
Definition stmt_assign_at (a : string) (x y : N) (v : option T) (σ : objects)
  : outcome () * objects :=
  match call_at a x y σ with
  | (Ok r, σ') => assign_ref r v σ'
  | (Throw e, σ') => (Throw e, σ')
  | (Undefined, σ') => (Undefined, σ')
  end.

(** [a.getWidth()], [a.getHeight()] *)
Definition call_getWidth (a : string) (σ : objects) : outcome N * objects :=
  match σ !! a with
  | Some g => (Ok (getWidth g), σ)
  | None => (Undefined, σ)
  end.

Definition call_getHeight (a : string) (σ : objects) : outcome N * objects :=
  match σ !! a with
  | Some g => (Ok (getHeight g), σ)
  | None => (Undefined, σ)
  end.

(** [Grid<T> b(a);] *)
Definition decl_copy (b a : string) (σ : objects) : outcome () * objects :=
  match σ !! a with
  | Some g => (Ok (), <[b := Grid_copy g]> σ)
  | None => (Undefined, σ)
  end.

(** [b = a;] with the defaulted copy assignment operator *)
Definition assign_copy (b a : string) (σ : objects) : outcome () * objects :=
  match σ !! a, σ !! b with
  | Some g, Some _ => (Ok (), <[b := Grid_copy g]> σ)
  | _, _ => (Undefined, σ)
  end.

(** [Grid<T> b(std::move(a));] for a new variable [b] *)
Definition decl_move (b a : string) (σ : objects) : outcome () * objects :=
  match σ !! a with
  | Some g =>
      let '(new, moved_from) := Grid_move g in
      (Ok (), <[b := new]> (<[a := moved_from]> σ))
  | None => (Undefined, σ)
  end.

(** Every grid the program holds satisfies the data-model invariant. *)
Definition objects_inv (σ : objects) : Prop :=
  map_Forall (λ _ g, Grid_inv g) σ.

Variable T_add : T → T → T.

(** [Grid<T> c = a + b;] *)
Definition decl_plus (c a b : string) (σ : objects) : outcome () * objects :=
  match σ !! a, σ !! b with
  | Some lhs, Some rhs =>
      match operator_plus T_add lhs rhs with
      | Ok result => (Ok (), <[c := result]> σ)
      | Throw e => (Throw e, σ)
      | Undefined => (Undefined, σ)
      end
  | _, _ => (Undefined, σ)
  end.

End Objects.

(** ** Sample grids of integers *)

(** A [w] × [h] grid with every cell holding [v]. *)
Definition filled (w h : N) (v : Z) : Grid Z :=
  {| mCells := replicate (N.to_nat w) (replicate (N.to_nat h) (Some v));
     mWidth := w;
     mHeight := h |}.

Definition ones_3x3 : Grid Z := filled 3 3 1.
Definition twos_2x4 : Grid Z := filled 2 4 2.
Definition fives_2x2 : Grid Z := filled 2 2 5.

(** 2 × 2, cell (0,0) absent, the others 5. *)
Definition fives_2x2_hole : Grid Z :=
  {| mCells := [[None; Some 5%Z]; [Some 5%Z; Some 5%Z]];
     mWidth := 2;
     mHeight := 2 |}.

(** 2 × 2 grids that differ only outside their overlap with a 1 × 1 grid. *)
Definition corner_a : Grid Z :=
  {| mCells := [[Some 1%Z; Some 7%Z]; [None; Some 8%Z]];
     mWidth := 2; mHeight := 2 |}.
Definition corner_b : Grid Z :=
  {| mCells := [[Some 1%Z; None]; [Some 9%Z; Some 3%Z]];
     mWidth := 2; mHeight := 2 |}.
Definition single_4 : Grid Z := filled 1 1 4.


(** * The employee records: code/employee-class/Employee.cpp,
      code/database-class/inc and code/ch-1/database-class/src

    - [int] is a 32-bit signed integer, held in [Z]; an addition or
      subtraction whose result does not fit is undefined behaviour;
    - a reference to an element of [mEmployees] is its index; such a
      reference is only used before the next [addEmployee], as in the
      callers, because [push_back] may move the elements;
    - what a function writes is the list of the operands of [<<], in
      order, each on the stream it went to;
    - the values a function extracts from [std::cin] are its arguments:
      runs in which an extraction fails are not modelled. *)

Definition INT_MIN : Z := -2147483648.
Definition INT_MAX : Z := 2147483647.

Definition int_range (z : Z) : Prop := (INT_MIN ≤ z ≤ INT_MAX)%Z.

(** The value of an [int] expression whose mathematical result is [z]. *)
Definition int_result (z : Z) : outcome Z :=
  if decide (int_range z) then Ok z else Undefined.

Inductive out_event : Set :=
  | Cout (s : string)
  | Cerr (s : string).

(** [std::endl] *)
Definition endl : string := String (Ascii.ascii_of_nat 10) EmptyString.

(** [catch (const std::logic_error&)] takes [std::logic_error] and the
    classes derived from it. *)
Definition is_logic_error (c : exception_class) : bool :=
  match c with
  | logic_error | domain_error | invalid_argument | length_error
  | out_of_range => true
  | runtime_error | range_error | overflow_error | underflow_error => false
  end.

(** [for (auto& employee : v) { if (test(employee)) return employee; }]:
    the reference returned from inside the loop, if any; [i] is the
    index of the head of [v]. *)
Fixpoint range_for_return {A} (test : A → bool) (v : list A) (i : N)
  : option N :=
  match v with
  | [] => None
  | employee :: rest =>
      if test employee then Some i else range_for_return test rest (N.succ i)
  end.

Module Records.
Local Open Scope Z_scope.

(** The const member [kDefaultStartingSalary], 30000 in every object. *)
Definition kDefaultStartingSalary : Z := 30000.

Record Employee : Set := mkEmployee {
  mFirstName : string;
  mLastName : string;
  mEmployeeNumber : Z;
  mSalary : Z;
  mHired : bool
}.

(** [Employee() = default] with the default member initializers. *)
Definition Employee_default : Employee :=
  {| mFirstName := ""; mLastName := ""; mEmployeeNumber := -1;
     mSalary := kDefaultStartingSalary; mHired := false |}.

(** [Employee(const std::string& firstName, const std::string& lastName)] *)
Definition Employee_ctor (firstName lastName : string) : Employee :=
  {| mFirstName := firstName; mLastName := lastName; mEmployeeNumber := -1;
     mSalary := kDefaultStartingSalary; mHired := false |}.

Definition setFirstName (e : Employee) (firstName : string) : Employee :=
  {| mFirstName := firstName; mLastName := mLastName e;
     mEmployeeNumber := mEmployeeNumber e; mSalary := mSalary e;
     mHired := mHired e |}.
Definition getFirstName (e : Employee) : string := mFirstName e.

Definition setLastName (e : Employee) (lastName : string) : Employee :=
  {| mFirstName := mFirstName e; mLastName := lastName;
     mEmployeeNumber := mEmployeeNumber e; mSalary := mSalary e;
     mHired := mHired e |}.
Definition getLastName (e : Employee) : string := mLastName e.

Definition getEmployeeNumber (e : Employee) : Z := mEmployeeNumber e.
Definition setEmployeeNumber (e : Employee) (employeeNumber : Z) : Employee :=
  {| mFirstName := mFirstName e; mLastName := mLastName e;
     mEmployeeNumber := employeeNumber; mSalary := mSalary e;
     mHired := mHired e |}.

Definition setSalary (e : Employee) (newSalary : Z) : Employee :=
  {| mFirstName := mFirstName e; mLastName := mLastName e;
     mEmployeeNumber := mEmployeeNumber e; mSalary := newSalary;
     mHired := mHired e |}.
Definition getSalary (e : Employee) : Z := mSalary e.

Definition isHired (e : Employee) : bool := mHired e.

Definition promote (e : Employee) (raiseAmmount : Z) : outcome Employee :=
  newSalary ← int_result (getSalary e + raiseAmmount);
  Ok (setSalary e newSalary).

Definition demote (e : Employee) (demeritAmount : Z) : outcome Employee :=
  newSalary ← int_result (getSalary e - demeritAmount);
  Ok (setSalary e newSalary).

Definition hire (e : Employee) : Employee :=
  {| mFirstName := mFirstName e; mLastName := mLastName e;
     mEmployeeNumber := mEmployeeNumber e; mSalary := mSalary e;
     mHired := true |}.

Definition fire (e : Employee) : Employee :=
  {| mFirstName := mFirstName e; mLastName := mLastName e;
     mEmployeeNumber := mEmployeeNumber e; mSalary := mSalary e;
     mHired := false |}.

Definition display (e : Employee) : list out_event :=
  [ Cout "Employee: "; Cout (getLastName e); Cout ", ";
    Cout (getFirstName e); Cout endl;
    Cout "-------"; Cout endl;
    Cout (if isHired e then "Current Employee" else "Former Employee");
    Cout endl;
    Cout "Employee Number: "; Cout (pretty (getEmployeeNumber e)); Cout endl;
    Cout "Salary: $"; Cout (pretty (getSalary e)); Cout endl;
    Cout endl ].

(** ** Database *)

Definition kFirstEmployeeNumber : Z := 1000.

Record Database : Set := mkDatabase {
  mEmployees : list Employee;
  mNextEmployeeNumber : Z
}.

Definition Database_default : Database :=
  {| mEmployees := []; mNextEmployeeNumber := kFirstEmployeeNumber |}.

(** [Employee& addEmployee(firstName, lastName)]: the reference returned
    and the database afterwards. *)
Definition addEmployee (db : Database) (firstName lastName : string)
  : outcome (N * Database) :=
  let theEmployee := Employee_ctor firstName lastName in
  let number := mNextEmployeeNumber db in
  next ← int_result (number + 1);
  let theEmployee := setEmployeeNumber theEmployee number in
  let theEmployee := hire theEmployee in
  let employees := mEmployees db ++ [theEmployee] in
  let last := (N.of_nat (length employees) - 1)%N in
  _ ← vec_index employees last;
  Ok (last, {| mEmployees := employees; mNextEmployeeNumber := next |}).

(** [Employee& getEmployee(int employeeNumber)] *)
Definition getEmployee (db : Database) (employeeNumber : Z) : outcome N :=
  match range_for_return
          (λ employee, bool_decide (getEmployeeNumber employee = employeeNumber))
          (mEmployees db) 0%N with
  | Some r => Ok r
  | None => Throw (StdExcept logic_error "No employee found.")
  end.

(** [Employee& getEmployee(firstName, lastName)] *)
Definition getEmployee_by_name (db : Database) (firstName lastName : string)
  : outcome N :=
  match range_for_return
          (λ employee,
             if String.eqb (getFirstName employee) firstName
             then if String.eqb (getLastName employee) lastName
                  then true else false
             else false)
          (mEmployees db) 0%N with
  | Some r => Ok r
  | None => Throw (StdExcept logic_error "No employee found.")
  end.

(** The element a reference designates, and the database after a
    member function has been applied through the reference. *)
Definition employee_at (db : Database) (r : N) : option Employee :=
  mEmployees db !! N.to_nat r.

Definition update_at (db : Database) (r : N) (f : Employee → Employee)
  : Database :=
  {| mEmployees := alter f (N.to_nat r) (mEmployees db);
     mNextEmployeeNumber := mNextEmployeeNumber db |}.

Definition displayAll (db : Database) : list out_event :=
  employee ← mEmployees db; display employee.

Definition displayCurrent (db : Database) : list out_event :=
  employee ← mEmployees db;
  if isHired employee then display employee else [].

Definition displayFormer (db : Database) : list out_event :=
  employee ← mEmployees db;
  if negb (isHired employee) then display employee else [].

(** ** UserMenu.cpp *)

(** [void doHire(Database& db)], having read [firstName] and
    [lastName]. *)
Definition doHire (db : Database) (firstName lastName : string)
  : outcome (Database * list out_event) :=
  '(_, db') ← addEmployee db firstName lastName;
  Ok (db', [Cout "First name? "; Cout endl; Cout "Last name? "]).

(** [void doFire(Database& db)], having read [employeeNumber]. *)
Definition doFire (db : Database) (employeeNumber : Z)
  : outcome (Database * list out_event) :=
  let prompt := [Cout "Employee number? "] in
  match getEmployee db employeeNumber with
  | Ok emp =>
      Ok (update_at db emp fire,
          prompt ++ [Cout "Employee "; Cout (pretty employeeNumber);
                     Cout " terminated."; Cout endl])
  | Throw exception =>
      if is_logic_error (exn_class exception)
      then Ok (db, prompt ++ [Cerr "Unable to terminate employee: ";
                              Cerr (what exception); Cerr endl])
      else Throw exception
  | Undefined => Undefined
  end.

(** [void doPromote(Database& db)], having read [employeeNumber] and
    [raiseAmount]. *)
Definition doPromote (db : Database) (employeeNumber raiseAmount : Z)
  : outcome (Database * list out_event) :=
  let prompt := [Cout "Employee number? "; Cout "How much of a raise? "] in
  match getEmployee db employeeNumber with
  | Ok emp =>
      match employee_at db emp with
      | Some e =>
          e' ← promote e raiseAmount;
          Ok (update_at db emp (λ _, e'), prompt)
      | None => Undefined
      end
  | Throw exception =>
      if is_logic_error (exn_class exception)
      then Ok (db, prompt ++ [Cerr "Unable to promote employee: ";
                              Cerr (what exception); Cerr endl])
      else Throw exception
  | Undefined => Undefined
  end.

(** The databases [main] of UserMenu.cpp can hold: [employeeDB] starts
    empty, and every pass of the [while (!done)] loop that changes it
    runs one of the three handlers; the listing commands take the
    database as const. *)
Inductive menu_run : Database → Prop :=
  | run_start : menu_run Database_default
  | run_hire db firstName lastName db' out :
      menu_run db → doHire db firstName lastName = Ok (db', out) →
      menu_run db'
  | run_fire db employeeNumber db' out :
      menu_run db → doFire db employeeNumber = Ok (db', out) →
      menu_run db'
  | run_promote db employeeNumber raiseAmount db' out :
      menu_run db → doPromote db employeeNumber raiseAmount = Ok (db', out) →
      menu_run db'.

(** The employees are numbered from [kFirstEmployeeNumber] in the order
    they were added, and the next number is the first one not given. *)
Definition numbered (db : Database) : Prop :=
  mNextEmployeeNumber db
  = kFirstEmployeeNumber + Z.of_nat (length (mEmployees db)) ∧
  ∀ i e, mEmployees db !! i = Some e →
         getEmployeeNumber e = kFirstEmployeeNumber + Z.of_nat i.

(** ** The test drivers *)

(** [main] of EmployeeTest.cpp: the exit status and what was written. *)
Definition EmployeeTest_main : outcome (Z * list out_event) :=
  let out := [Cout "Testing the Employee class."; Cout endl] in
  let emp := Employee_default in
  let emp := setFirstName emp "John" in
  let emp := setLastName emp "Doe" in
  let emp := setEmployeeNumber emp 71 in
  let emp := setSalary emp 50000 in
  emp ← promote emp 1000;
  emp ← promote emp 50;
  let emp := hire emp in
  Ok (0, out ++ display emp).

(** [main] of DatabaseTest.cpp: the database at the end and what was
    written. *)
Definition DatabaseTest_main : outcome (Database * list out_event) :=
  let myDB := Database_default in
  '(emp1, myDB) ← addEmployee myDB "Greg" "Wallis";
  let myDB := update_at myDB emp1 fire in
  '(emp2, myDB) ← addEmployee myDB "Marc" "White";
  let myDB := update_at myDB emp2 (λ e, setSalary e 100000) in
  '(emp3, myDB) ← addEmployee myDB "John" "Doe";
  let myDB := update_at myDB emp3 (λ e, setSalary e 10000) in
  match employee_at myDB emp3 with
  | None => Undefined
  | Some e =>
      e ← promote e 1000;
      let myDB := update_at myDB emp3 (λ _, e) in
      Ok (myDB,
          [Cout "all employees: "; Cout endl; Cout endl] ++ displayAll myDB ++
          [Cout "current employees: "; Cout endl; Cout endl] ++ displayCurrent myDB ++
          [Cout "former employees: "; Cout endl; Cout endl] ++ displayFormer myDB)
  end.

(** ** Sample databases *)

Definition john_doe (number : Z) : Employee :=
  {| mFirstName := "John"; mLastName := "Doe"; mEmployeeNumber := number;
     mSalary := kDefaultStartingSalary; mHired := true |}.

Definition one_john_db : Database :=
  {| mEmployees := [john_doe 1000]; mNextEmployeeNumber := 1001 |}.

Definition two_johns_db : Database :=
  {| mEmployees := [john_doe 1000; john_doe 1001];
     mNextEmployeeNumber := 1002 |}.

End Records.

(** The cell that [operator+] is to produce from two operand cells
    (used to state the loop invariants). *)
Definition cell_sum {T} (T_add : T → T → T) (a b : option T) : option T :=
  match a, b with
  | Some l, Some r => Some (T_add l r)
  | _, _ => None
  end.

(** * Properties *)

(** ** Loops *)

Section Loops.
Context {S : Type}.
Implicit Types (body : N → S → outcome S) (s : S).

(** A loop whose body succeeds and maintains [P] succeeds and
    establishes [P] at the exit index. *)
Lemma for_loop_inv (P : N → S → Prop) body n i s :
  P i s →
  (∀ k s0, i ≤ k < i + N.of_nat n → P k s0 →
           ∃ s1, body k s0 = Ok s1 ∧ P (N.succ k) s1) →
  ∃ s', for_loop n i body s = Ok s' ∧ P (i + N.of_nat n) s'.
Proof.
  revert i s. induction n as [|n IH]; intros i s Hi Hstep.
  - exists s. split; [done|]. by replace (i + N.of_nat 0) with i by lia.
  - destruct (Hstep i s) as (s1 & Hb & HP); [lia|done|].
    destruct (IH (N.succ i) s1) as (s' & Hl & HP'); [done| |].
    + intros k s0 Hk. apply Hstep. lia.
    + exists s'. simpl. rewrite Hb. simpl. split; [done|].
      by replace (i + N.of_nat (Datatypes.S n)) with (N.succ i + N.of_nat n) by lia.
Qed.

(** Two loops whose bodies agree on the index range agree. *)
Lemma for_loop_ext body1 body2 n i s :
  (∀ k s0, i ≤ k < i + N.of_nat n → body1 k s0 = body2 k s0) →
  for_loop n i body1 s = for_loop n i body2 s.
Proof.
  revert i s. induction n as [|n IH]; intros i s Hext; [done|].
  simpl. rewrite (Hext i s) by lia.
  destruct (body2 i s) as [s1| |]; simpl; [|done..].
  apply IH. intros k s0 Hk. apply Hext. lia.
Qed.

(** A loop whose body never throws while [P] holds never throws. *)
Lemma for_loop_no_throw (P : N → S → Prop) body n i s e :
  P i s →
  (∀ k s0, i ≤ k < i + N.of_nat n → P k s0 →
           (∀ e0, body k s0 ≠ Throw e0) ∧
           (∀ s1, body k s0 = Ok s1 → P (N.succ k) s1)) →
  for_loop n i body s ≠ Throw e.
Proof.
  revert i s. induction n as [|n IH]; intros i s Hi Hstep; [done|].
  destruct (Hstep i s) as [Hnt HP]; [lia|done|].
  simpl. destruct (body i s) as [s1|e0|] eqn:Hb; simpl; [|by destruct (Hnt e0)|done].
  apply IH; [by apply HP|]. intros k s0 Hk. apply Hstep. lia.
Qed.

Lemma for_upto_no_throw (P : N → S → Prop) body bound s e :
  P 0 s →
  (∀ k s0, k < bound → P k s0 →
           (∀ e0, body k s0 ≠ Throw e0) ∧
           (∀ s1, body k s0 = Ok s1 → P (N.succ k) s1)) →
  for_upto bound body s ≠ Throw e.
Proof.
  intros H0 Hstep. apply (for_loop_no_throw P); [done|].
  intros k s0 Hk. apply Hstep. lia.
Qed.

(** What a loop that returns has established. *)
Lemma for_loop_post (P : N → S → Prop) body n i s s' :
  P i s →
  (∀ k s0 s1, i ≤ k < i + N.of_nat n → P k s0 → body k s0 = Ok s1 →
              P (N.succ k) s1) →
  for_loop n i body s = Ok s' → P (i + N.of_nat n) s'.
Proof.
  revert i s. induction n as [|n IH]; intros i s Hi Hstep Hl.
  - simpl in Hl. simplify_eq. by replace (i + N.of_nat 0) with i by lia.
  - simpl in Hl. destruct (body i s) as [s1| |] eqn:Hb; simpl in Hl; [|done..].
    replace (i + N.of_nat (Datatypes.S n)) with (N.succ i + N.of_nat n) by lia.
    apply (IH (N.succ i) s1); [apply (Hstep i s); done || lia| |done].
    intros k s0 s2 Hk. apply Hstep. lia.
Qed.

Lemma for_upto_inv (P : N → S → Prop) body bound s :
  P 0 s →
  (∀ k s0, k < bound → P k s0 → ∃ s1, body k s0 = Ok s1 ∧ P (N.succ k) s1) →
  ∃ s', for_upto bound body s = Ok s' ∧ P bound s'.
Proof.
  intros H0 Hstep. unfold for_upto.
  destruct (for_loop_inv P body (N.to_nat bound) 0 s) as (s' & Hl & HP); [done| |].
  - intros k s0 Hk. apply Hstep. lia.
  - exists s'. split; [done|]. by replace bound with (0 + N.of_nat (N.to_nat bound)) at 1 by lia.
Qed.

Lemma for_upto_ext body1 body2 bound s :
  (∀ k s0, k < bound → body1 k s0 = body2 k s0) →
  for_upto bound body1 s = for_upto bound body2 s.
Proof.
  intros Hext. apply for_loop_ext. intros k s0 Hk. apply Hext. lia.
Qed.
End Loops.

(** ** Cells, construction, access *)

Section GridFacts.
Context {T : Type}.
Implicit Types (g : Grid T) (x y w h : N) (v : option T) (r : cell_ref).

Lemma mCells_ctor w h :
  mCells (Grid_ctor (T:=T) w h)
  = replicate (N.to_nat w) (replicate (N.to_nat h) None).
Proof.
  unfold Grid_ctor. simpl. by rewrite !resize_nil, fmap_replicate, resize_nil.
Qed.

Lemma Grid_ctor_inv w h : Grid_inv (Grid_ctor (T:=T) w h).
Proof.
  unfold Grid_inv. rewrite mCells_ctor. simpl. split.
  - by rewrite length_replicate.
  - apply Forall_replicate. by rewrite length_replicate.
Qed.

Lemma cell_ctor w h x y :
  x < w → y < h → cell (Grid_ctor (T:=T) w h) x y = Some None.
Proof.
  intros Hx Hy. unfold cell. rewrite mCells_ctor.
  rewrite lookup_replicate_2 by lia. simpl.
  by rewrite lookup_replicate_2 by lia.
Qed.

Lemma cell_is_Some g x y :
  Grid_inv g → x < mWidth g → y < mHeight g → is_Some (cell g x y).
Proof.
  intros [Hw Hh] Hx Hy. unfold cell.
  destruct (lookup_lt_is_Some_2 (mCells g) (N.to_nat x)) as [column Hc]; [lia|].
  rewrite Hc. simpl. apply lookup_lt_is_Some_2.
  rewrite (Forall_lookup_1 _ _ _ _ Hh Hc). lia.
Qed.

Lemma table_index_cell g x y :
  table_index (mCells g) x y
  = match cell g x y with Some c => Ok c | None => Undefined end.
Proof.
  unfold table_index, vec_index, cell.
  destruct (mCells g !! N.to_nat x) as [column|]; simpl; [|done].
  by destruct (column !! N.to_nat y).
Qed.

Lemma verifyCoordinate_throw g x y :
  mWidth g ≤ x ∨ mHeight g ≤ y →
  verifyCoordinate g x y = Throw (StdExcept out_of_range "").
Proof.
  intros H. unfold verifyCoordinate.
  destruct (mWidth g <=? x) eqn:E1; [done|].
  destruct (mHeight g <=? y) eqn:E2; [done|].
  apply N.leb_gt in E1, E2. lia.
Qed.

Lemma verifyCoordinate_ok g x y :
  x < mWidth g → y < mHeight g → verifyCoordinate g x y = Ok ().
Proof.
  intros Hx Hy. unfold verifyCoordinate.
  apply N.leb_gt in Hx, Hy. by rewrite Hx, Hy.
Qed.

Lemma at_const_throw g x y :
  mWidth g ≤ x ∨ mHeight g ≤ y →
  at_const g x y = Throw (StdExcept out_of_range "").
Proof. intros H. unfold at_const. by rewrite verifyCoordinate_throw. Qed.

Lemma at_const_inside g x y :
  x < mWidth g → y < mHeight g →
  at_const g x y
  = match cell g x y with Some _ => Ok (CellRef x y) | None => Undefined end.
Proof.
  intros Hx Hy. unfold at_const. rewrite verifyCoordinate_ok by done. simpl.
  rewrite table_index_cell. by destruct (cell g x y).
Qed.

Lemma at_const_ok g x y :
  Grid_inv g → x < mWidth g → y < mHeight g → at_const g x y = Ok (CellRef x y).
Proof.
  intros Hg Hx Hy. rewrite at_const_inside by done.
  by destruct (cell_is_Some g x y Hg Hx Hy) as [c ->].
Qed.

Lemma store_inv g r v : Grid_inv g → Grid_inv (store g r v).
Proof.
  intros [Hw Hh]. unfold Grid_inv, store. simpl. split.
  - by rewrite length_alter.
  - apply Forall_lookup_2. intros i column Hi.
    rewrite list_lookup_alter in Hi. case_decide as Hd.
    + subst i. destruct (mCells g !! N.to_nat (ref_x r)) as [c0|] eqn:Hc;
        simplify_eq/=.
      rewrite length_insert. exact (Forall_lookup_1 _ _ _ _ Hh Hc).
    + exact (Forall_lookup_1 _ _ _ _ Hh Hi).
Qed.

Lemma cell_store_eq g x y v :
  is_Some (cell g x y) → cell (store g (CellRef x y) v) x y = Some v.
Proof.
  intros [c Hc]. unfold cell, store in *. simpl in *.
  rewrite list_lookup_alter_eq.
  destruct (mCells g !! N.to_nat x) as [column|]; simplify_eq/=.
  apply list_lookup_insert_eq. by eapply lookup_lt_Some.
Qed.

Lemma cell_store_ne g x y v x' y' :
  (x, y) ≠ (x', y') → cell (store g (CellRef x y) v) x' y' = cell g x' y'.
Proof.
  intros Hne. unfold cell, store. simpl.
  destruct (decide (x = x')) as [->|Hx].
  - rewrite list_lookup_alter_eq.
    destruct (mCells g !! N.to_nat x') as [column|]; simpl; [|done].
    apply list_lookup_insert_ne. intros Heq. apply Hne. f_equal. lia.
  - rewrite list_lookup_alter_ne by lia. done.
Qed.

Lemma assign_at_ok g x y v :
  Grid_inv g → x < mWidth g → y < mHeight g →
  assign_at g x y v = Ok (store g (CellRef x y) v).
Proof.
  intros Hg Hx Hy. unfold assign_at, at_. by rewrite at_const_ok.
Qed.

(** Two well-formed grids with the same dimensions and the same cells
    are the same grid. *)
Lemma Grid_ext g1 g2 :
  Grid_inv g1 → Grid_inv g2 →
  mWidth g1 = mWidth g2 → mHeight g1 = mHeight g2 →
  (∀ x y, x < mWidth g1 → y < mHeight g1 → cell g1 x y = cell g2 x y) →
  g1 = g2.
Proof.
  destruct g1 as [c1 w1 h1], g2 as [c2 w2 h2].
  intros [Hw1 Hh1] [Hw2 Hh2] Hw Hh Hcell. simpl in *. subst w2 h2.
  f_equal. apply list_eq. intros i.
  destruct (decide (i < length c1)%nat) as [Hi|Hi].
  - destruct (lookup_lt_is_Some_2 c1 i Hi) as [col1 E1].
    destruct (lookup_lt_is_Some_2 c2 i) as [col2 E2]; [lia|].
    rewrite E1, E2. f_equal. apply list_eq. intros j.
    destruct (decide (j < N.to_nat h1)%nat) as [Hj|Hj].
    + specialize (Hcell (N.of_nat i) (N.of_nat j)). unfold cell in Hcell.
      simpl in Hcell. rewrite !Nat2N.id, E1, E2 in Hcell. simpl in Hcell.
      apply Hcell; lia.
    + rewrite !lookup_ge_None_2; [done| |].
      * rewrite (Forall_lookup_1 _ _ _ _ Hh2 E2). lia.
      * rewrite (Forall_lookup_1 _ _ _ _ Hh1 E1). lia.
  - rewrite !lookup_ge_None_2; [done|lia..].
Qed.
End GridFacts.

(** ** The elementwise sum *)

Section Plus.
Context {T : Type} (T_add : T → T → T).
Implicit Types (A B R : Grid T) (x y : N).

(** On well-formed operands the two loops run to completion, and the
    result is the well-formed [minWidth × minHeight] grid of cell sums. *)
Lemma operator_plus_ok A B :
  Grid_inv A → Grid_inv B →
  ∃ R, operator_plus T_add A B = Ok R ∧ Grid_inv R ∧
       mWidth R = N.min (mWidth A) (mWidth B) ∧
       mHeight R = N.min (mHeight A) (mHeight B) ∧
       ∀ x y a b, x < mWidth R → y < mHeight R →
                  cell A x y = Some a → cell B x y = Some b →
                  cell R x y = Some (cell_sum T_add a b).
Proof.
  intros HA HB. unfold operator_plus, getWidth, getHeight.
  set (W := N.min (mWidth A) (mWidth B)).
  set (H := N.min (mHeight A) (mHeight B)).
  pose (P := λ (j : N) (res : Grid T),
    Grid_inv res ∧ mWidth res = W ∧ mHeight res = H ∧
    ∀ x y a b, x < W → y < H → cell A x y = Some a → cell B x y = Some b →
      cell res x y = Some (if decide (y < j) then cell_sum T_add a b else None)).
  match goal with |- ∃ R, for_upto H ?body ?s = _ ∧ _ =>
    destruct (for_upto_inv P body H s) as (R & HR & HinvR & HwR & HhR & HcR)
  end.
  - (* the freshly constructed result *)
    split; [apply Grid_ctor_inv|]. do 2 (split; [done|]).
    intros x y a b Hx Hy _ _. rewrite cell_ctor by done.
    case_decide; [lia|done].
  - (* one row *)
    intros j res Hj (Hinv & Hw & Hh & Hc).
    pose (Q := λ (i : N) (res' : Grid T),
      Grid_inv res' ∧ mWidth res' = W ∧ mHeight res' = H ∧
      ∀ x y a b, x < W → y < H → cell A x y = Some a → cell B x y = Some b →
        cell res' x y
        = Some (if decide (y < j ∨ (y = j ∧ x < i))
                then cell_sum T_add a b else None)).
    match goal with |- ∃ s1, for_upto W ?body ?s = _ ∧ _ =>
      destruct (for_upto_inv Q body W s) as (res' & Hres' & Hinv' & Hw' & Hh' & Hc')
    end.
    + do 3 (split; [done|]). intros x y a b Hx Hy Ha Hb.
      rewrite (Hc x y a b) by done. repeat case_decide; done || lia.
    + (* one cell *)
      intros i r0 Hi (Hinv0 & Hw0 & Hh0 & Hc0).
      destruct (cell_is_Some A i j HA) as [a Ha]; [lia..|].
      destruct (cell_is_Some B i j HB) as [b Hb]; [lia..|].
      rewrite !table_index_cell, Ha, Hb. simpl.
      assert (Hkeep : ∀ r1, Grid_inv r1 → mWidth r1 = W → mHeight r1 = H →
                cell r1 i j = Some (cell_sum T_add a b) →
                (∀ x y, (i, j) ≠ (x, y) → cell r1 x y = cell r0 x y) →
                Q (N.succ i) r1).
      { intros r1 Hi1 Hw1 Hh1 Hnew Hold. do 3 (split; [done|]).
        intros x y a' b' Hx Hy Ha' Hb'.
        destruct (decide ((i, j) = (x, y))) as [[= <- <-]|Hne].
        - rewrite Hnew. simplify_eq. case_decide; [done|lia].
        - rewrite Hold by done. rewrite (Hc0 x y a' b') by done.
          assert (x ≠ i ∨ y ≠ j) by (destruct (decide (x = i)); [right|left]; congruence).
          repeat case_decide; done || lia. }
      assert (Hsame : cell_sum T_add a b = None → Q (N.succ i) r0).
      { intros Hnone. apply Hkeep; [done..| |done].
        rewrite (Hc0 i j a b), Hnone by (done || lia).
        by case_decide. }
      destruct a as [l|], b as [r|]; try (eexists; split; [done|]; by apply Hsame).
      rewrite assign_at_ok by (done || lia).
      eexists; split; [done|]. apply Hkeep; [by apply store_inv|done|done| |].
      * apply cell_store_eq. apply cell_is_Some; [done|lia..].
      * intros x y Hne. by apply cell_store_ne.
    + exists res'. split; [done|]. do 3 (split; [done|]).
      intros x y a b Hx Hy Ha Hb. rewrite (Hc' x y a b) by done.
      repeat case_decide; done || lia.
  - exists R. split; [done|]. split; [done|]. split; [done|]. split; [done|].
    intros x y a b Hx Hy Ha Hb. rewrite (HcR x y a b) by (done || lia).
    case_decide; [done|lia].
Qed.

(** No exception leaves [operator+], whatever the operands: the only
    call that can throw is [result.at(x, y)], and the loops keep (x, y)
    inside the result they constructed. *)
Lemma operator_plus_no_throw A B e : operator_plus T_add A B ≠ Throw e.
Proof.
  unfold operator_plus, getWidth, getHeight.
  set (W := N.min (mWidth A) (mWidth B)).
  set (H := N.min (mHeight A) (mHeight B)).
  pose (P := λ (_ : N) (res : Grid T),
    Grid_inv res ∧ mWidth res = W ∧ mHeight res = H).
  assert (Hcell : ∀ y x res, y < H → x < W → P x res →
    let step :=
      leftElement ← table_index (mCells A) x y;
      rightElement ← table_index (mCells B) x y;
      match leftElement, rightElement with
      | Some l, Some r => assign_at res x y (Some (T_add l r))
      | _, _ => Ok res
      end in
    (∀ e0, step ≠ Throw e0) ∧ (∀ res1, step = Ok res1 → P (N.succ x) res1)).
  { intros y x res Hy Hx (Hinv & Hw & Hh). simpl. rewrite !table_index_cell.
    destruct (cell A x y) as [[l|]|], (cell B x y) as [[r|]|]; simpl;
      try (split; [done|intros ? [= <-]; done]).
    rewrite assign_at_ok by (done || lia).
    split; [done|]. intros ? [= <-]. split; [by apply store_inv|done]. }
  apply (for_upto_no_throw P).
  - split; [apply Grid_ctor_inv|done].
  - intros y res Hy HP. split.
    + intros e0. apply (for_upto_no_throw P); [done|].
      intros x res' Hx HP'. by apply Hcell.
    + intros res1 Hres1.
      unfold for_upto in Hres1.
      apply (for_loop_post P _ _ 0 res res1 HP) in Hres1; [done|].
      intros x res' res'' Hx HP' Hb. apply (Hcell y x res'); [done|lia|done|done].
Qed.

(** The loop body only reads the operands at the index it is at. *)
Lemma operator_plus_agree A B A' B' :
  mWidth A = mWidth A' → mHeight A = mHeight A' →
  mWidth B = mWidth B' → mHeight B = mHeight B' →
  (∀ x y, x < N.min (mWidth A) (mWidth B) → y < N.min (mHeight A) (mHeight B) →
          cell A x y = cell A' x y ∧ cell B x y = cell B' x y) →
  operator_plus T_add A B = operator_plus T_add A' B'.
Proof.
  intros HwA HhA HwB HhB Hcell. unfold operator_plus, getWidth, getHeight.
  rewrite <- HwA, <- HhA, <- HwB, <- HhB.
  apply for_upto_ext. intros y res Hy.
  apply for_upto_ext. intros x res' Hx.
  destruct (Hcell x y Hx Hy) as [EA EB].
  by rewrite !table_index_cell, EA, EB.
Qed.

(** Swapping the operands of a commutative addition changes nothing,
    on any pair of grids. *)
Lemma operator_plus_swap A B :
  (∀ a b, T_add a b = T_add b a) →
  operator_plus T_add A B = operator_plus T_add B A.
Proof.
  intros Hcomm. unfold operator_plus, getWidth, getHeight.
  rewrite (N.min_comm (mWidth B)), (N.min_comm (mHeight B)).
  apply for_upto_ext. intros y res Hy.
  apply for_upto_ext. intros x res' Hx.
  rewrite !table_index_cell.
  destruct (cell A x y) as [[l|]|], (cell B x y) as [[r|]|]; simpl; try done.
  by rewrite Hcomm.
Qed.
End Plus.

(** ** Copies and moves *)

Section CopyMove.
Context {T : Type}.
Implicit Types (g : Grid T).

Lemma Grid_copy_eq g : Grid_copy g = g.
Proof. by destruct g. Qed.

Lemma Grid_copy_inv g : Grid_inv g → Grid_inv (Grid_copy g).
Proof. by rewrite Grid_copy_eq. Qed.

(** The object a move constructs is the source as it was. *)
Lemma Grid_move_target g : (Grid_move g).1 = g.
Proof. by destruct g. Qed.

(** The source keeps its dimensions and loses its table. *)
Lemma Grid_move_source g :
  mCells (Grid_move g).2 = [] ∧
  mWidth (Grid_move g).2 = mWidth g ∧ mHeight (Grid_move g).2 = mHeight g.
Proof. done. Qed.

Lemma Grid_move_source_inv g : Grid_inv (Grid_move g).2 ↔ mWidth g = 0.
Proof.
  unfold Grid_inv. simpl. split.
  - intros [Hw _]. lia.
  - intros ->. split; [done|constructor].
Qed.
End CopyMove.

(** ** The invariant across the statements of a program

    Construction, assignment through [at], copying and [operator+] keep
    every object well-formed; a move construction does so only when the
    source has no columns. *)

Section ObjectsInv.
Context {T : Type} (T_add : T → T → T).
Implicit Types (σ : gmap string (Grid T)) (a b c : string).

Lemma decl_ctor_inv a w h σ :
  objects_inv σ → objects_inv (decl_ctor a w h σ).2.
Proof. intros Hσ. apply map_Forall_insert_2; [apply Grid_ctor_inv|done]. Qed.

Lemma stmt_assign_at_inv a x y v σ :
  objects_inv σ → objects_inv (stmt_assign_at a x y v σ).2.
Proof.
  intros Hσ. unfold stmt_assign_at, call_at, assign_ref.
  destruct (σ !! a) as [g|] eqn:Ha; [|done].
  destruct (at_ g x y) as [r| |]; simpl; [|done..].
  rewrite Ha. simpl. apply map_Forall_insert_2; [|done].
  apply store_inv. exact (map_Forall_lookup_1 _ _ _ _ Hσ Ha).
Qed.

Lemma decl_copy_inv b a σ : objects_inv σ → objects_inv (decl_copy b a σ).2.
Proof.
  intros Hσ. unfold decl_copy. destruct (σ !! a) as [g|] eqn:Ha; [|done].
  simpl. apply map_Forall_insert_2; [|done].
  apply Grid_copy_inv. exact (map_Forall_lookup_1 _ _ _ _ Hσ Ha).
Qed.

Lemma assign_copy_inv b a σ : objects_inv σ → objects_inv (assign_copy b a σ).2.
Proof.
  intros Hσ. unfold assign_copy. destruct (σ !! a) as [g|] eqn:Ha; [|done].
  destruct (σ !! b); [|done]. simpl. apply map_Forall_insert_2; [|done].
  apply Grid_copy_inv. exact (map_Forall_lookup_1 _ _ _ _ Hσ Ha).
Qed.

Lemma decl_plus_inv c a b σ :
  objects_inv σ → objects_inv (decl_plus T_add c a b σ).2.
Proof.
  intros Hσ. unfold decl_plus.
  destruct (σ !! a) as [A|] eqn:Ha; [|done].
  destruct (σ !! b) as [B|] eqn:Hb; [|done].
  destruct (operator_plus_ok T_add A B) as (R & -> & HR & _).
  - exact (map_Forall_lookup_1 _ _ _ _ Hσ Ha).
  - exact (map_Forall_lookup_1 _ _ _ _ Hσ Hb).
  - simpl. by apply map_Forall_insert_2.
Qed.

Lemma decl_move_inv b a σ g :
  a ≠ b → σ !! a = Some g → objects_inv σ →
  objects_inv (decl_move b a σ).2 ↔ mWidth g = 0.
Proof.
  intros Hne Ha Hσ. unfold decl_move. rewrite Ha. simpl. split.
  - intros Hinv. apply (Grid_move_source_inv g).
    apply (map_Forall_lookup_1 _ _ a _ Hinv).
    by rewrite lookup_insert_ne, lookup_insert_eq by done.
  - intros Hw. apply map_Forall_insert_2.
    + pose proof (map_Forall_lookup_1 _ _ _ _ Hσ Ha) as Hg. by destruct g.
    + apply map_Forall_insert_2; [|done]. by apply (Grid_move_source_inv g).
Qed.
End ObjectsInv.

(** ** Sample grids *)

Lemma filled_inv w h v : Grid_inv (filled w h v).
Proof.
  unfold Grid_inv, filled. simpl. split.
  - by rewrite length_replicate.
  - apply Forall_replicate. by rewrite length_replicate.
Qed.

(** The two worked examples of the specification. *)
Example plus_truncates :
  operator_plus Z.add ones_3x3 twos_2x4 = Ok (filled 2 3 3).
Proof. reflexivity. Qed.

Example plus_propagates_absence :
  operator_plus Z.add fives_2x2_hole fives_2x2
  = Ok {| mCells := [[None; Some 10%Z]; [Some 10%Z; Some 10%Z]];
          mWidth := 2; mHeight := 2 |}.
Proof. reflexivity. Qed.

(** * The claims *)

(** C1. For well-formed grids A and B, A + B raises no error, whatever
    the operands' dimensions, and is a new well-formed grid of
    min(A.width, B.width) columns and min(B.height, A.height) rows; at
    every coordinate inside it the cell is present with the sum of the
    operands' values when both operand cells are present, and absent as
    soon as one operand cell is absent. *)
Theorem operator_plus_spec {T} (T_add : T → T → T) (A B : Grid T) :
  Grid_inv A → Grid_inv B →
  ∃ R, operator_plus T_add A B = Ok R ∧
       Grid_inv R ∧
       getWidth R = N.min (getWidth A) (getWidth B) ∧
       getHeight R = N.min (getHeight B) (getHeight A) ∧
       ∀ x y, x < getWidth R → y < getHeight R →
         is_Some (cell A x y) ∧ is_Some (cell B x y) ∧
         (∀ a b, cell A x y = Some (Some a) → cell B x y = Some (Some b) →
                 cell R x y = Some (Some (T_add a b))) ∧
         (cell A x y = Some None ∨ cell B x y = Some None →
          cell R x y = Some None).
Proof.
  intros HA HB.
  destruct (operator_plus_ok T_add A B HA HB) as (R & HR & Hinv & Hw & Hh & Hc).
  exists R. unfold getWidth, getHeight. rewrite (N.min_comm (mHeight B)).
  do 4 (split; [done|]). intros x y Hx Hy.
  destruct (cell_is_Some A x y HA) as [a Ha]; [lia..|].
  destruct (cell_is_Some B x y HB) as [b Hb]; [lia..|].
  rewrite Ha, Hb. do 2 (split; [done|]).
  pose proof (Hc x y a b Hx Hy Ha Hb) as Hsum. split.
  - intros a' b' [= ->] [= ->]. done.
  - intros [[= ->]|[= ->]]; [done|]. rewrite Hsum. by destruct a.
Qed.

Lemma operator_plus_spec_witness :
  ∃ R, operator_plus Z.add ones_3x3 twos_2x4 = Ok R ∧
       Grid_inv R ∧
       getWidth R = N.min (getWidth ones_3x3) (getWidth twos_2x4) ∧
       getHeight R = N.min (getHeight twos_2x4) (getHeight ones_3x3) ∧
       ∀ x y, x < getWidth R → y < getHeight R →
         is_Some (cell ones_3x3 x y) ∧ is_Some (cell twos_2x4 x y) ∧
         (∀ a b, cell ones_3x3 x y = Some (Some a) →
                 cell twos_2x4 x y = Some (Some b) →
                 cell R x y = Some (Some (a + b)%Z)) ∧
         (cell ones_3x3 x y = Some None ∨ cell twos_2x4 x y = Some None →
          cell R x y = Some None).
Proof.
  apply (operator_plus_spec Z.add ones_3x3 twos_2x4).
  - split; [reflexivity|repeat constructor].
  - split; [reflexivity|repeat constructor].
Defined.

(** C2. On a well-formed grid of dimensions (W, H), at(x, y) throws if
    and only if x >= W or y >= H, and what it throws is out_of_range;
    otherwise it returns the reference to the cell at (x, y), which
    exists and which no other coordinate pair yields; when it throws,
    the objects of the program are left exactly as they were, also when
    the call is the target of an assignment. *)
Theorem at_bounds_checked {T} (g : Grid T) (x y : N) :
  Grid_inv g →
  (throws (at_const g x y) ↔ getWidth g ≤ x ∨ getHeight g ≤ y) ∧
  (throws (at_const g x y) →
   at_const g x y = Throw (StdExcept out_of_range "")) ∧
  (¬ throws (at_const g x y) →
   at_const g x y = Ok (CellRef x y) ∧ is_Some (load g (CellRef x y))) ∧
  (∀ x' y' r, at_const g x y = Ok r → at_const g x' y' = Ok r →
              x' = x ∧ y' = y) ∧
  (∀ a (σ : gmap string (Grid T)) v,
     σ !! a = Some g → throws (at_const g x y) →
     call_at_const a x y σ = (Throw (StdExcept out_of_range ""), σ) ∧
     call_at a x y σ = (Throw (StdExcept out_of_range ""), σ) ∧
     stmt_assign_at a x y v σ = (Throw (StdExcept out_of_range ""), σ)).
Proof.
  intros Hg. unfold getWidth, getHeight.
  assert (Hthrow : throws (at_const g x y) → mWidth g ≤ x ∨ mHeight g ≤ y).
  { intros [e He].
    destruct (decide (mWidth g ≤ x ∨ mHeight g ≤ y)) as [|Hin]; [done|].
    rewrite at_const_ok in He by (done || lia). done. }
  split; [split; [done|]|].
  { intros Hout. eexists. by apply at_const_throw. }
  split; [intros Ht; by apply at_const_throw, Hthrow|].
  split.
  { intros Hnt.
    assert (x < mWidth g ∧ y < mHeight g) as [Hx Hy].
    { destruct (decide (mWidth g ≤ x ∨ mHeight g ≤ y)) as [Hout|]; [|lia].
      exfalso. apply Hnt. eexists. by apply at_const_throw. }
    split; [by apply at_const_ok|]. by apply cell_is_Some. }
  split.
  { intros x' y' r H1 H2.
    destruct (decide (mWidth g ≤ x ∨ mHeight g ≤ y)) as [Hout|].
    { by rewrite at_const_throw in H1. }
    destruct (decide (mWidth g ≤ x' ∨ mHeight g ≤ y')) as [Hout'|].
    { by rewrite at_const_throw in H2. }
    rewrite at_const_ok in H1, H2 by (done || lia). by simplify_eq. }
  intros a σ v Hσ Ht. apply Hthrow in Ht.
  unfold stmt_assign_at, call_at, call_at_const, at_. rewrite Hσ.
  by rewrite at_const_throw.
Qed.

Lemma at_bounds_checked_witness :
  (throws (at_const ones_3x3 3 0) ↔ getWidth ones_3x3 ≤ 3 ∨ getHeight ones_3x3 ≤ 0) ∧
  (throws (at_const ones_3x3 3 0) →
   at_const ones_3x3 3 0 = Throw (StdExcept out_of_range "")) ∧
  (¬ throws (at_const ones_3x3 3 0) →
   at_const ones_3x3 3 0 = Ok (CellRef 3 0) ∧ is_Some (load ones_3x3 (CellRef 3 0))) ∧
  (∀ x' y' r, at_const ones_3x3 3 0 = Ok r → at_const ones_3x3 x' y' = Ok r →
              x' = 3 ∧ y' = 0) ∧
  (∀ a (σ : gmap string (Grid Z)) v,
     σ !! a = Some ones_3x3 → throws (at_const ones_3x3 3 0) →
     call_at_const a 3 0 σ = (Throw (StdExcept out_of_range ""), σ) ∧
     call_at a 3 0 σ = (Throw (StdExcept out_of_range ""), σ) ∧
     stmt_assign_at a 3 0 v σ = (Throw (StdExcept out_of_range ""), σ)).
Proof.
  apply (at_bounds_checked ones_3x3 3 0).
  split; [reflexivity|repeat constructor].
Defined.

(** C3. For every width w and height h, constructing Grid(w, h)
    succeeds and gives a well-formed grid with getWidth() = w and
    getHeight() = h whose every valid cell is absent; when w = 0 or
    h = 0 every call of at throws; Grid() is the 10 × 10 grid of absent
    cells. *)
Theorem Grid_ctor_spec {T} (w h : N) :
  (∀ a (σ : gmap string (Grid T)),
     decl_ctor a w h σ = (Ok (), <[a := Grid_ctor w h]> σ)) ∧
  getWidth (Grid_ctor (T:=T) w h) = w ∧
  getHeight (Grid_ctor (T:=T) w h) = h ∧
  Grid_inv (Grid_ctor (T:=T) w h) ∧
  (∀ x y, x < w → y < h →
     at_ (Grid_ctor (T:=T) w h) x y = Ok (CellRef x y) ∧
     load (Grid_ctor (T:=T) w h) (CellRef x y) = Some None) ∧
  (w = 0 ∨ h = 0 →
   ∀ x y, throws (at_ (Grid_ctor (T:=T) w h) x y) ∧
          throws (at_const (Grid_ctor (T:=T) w h) x y)) ∧
  getWidth (Grid_default (T:=T)) = 10 ∧
  getHeight (Grid_default (T:=T)) = 10 ∧
  (∀ x y, x < 10 → y < 10 →
     at_ (Grid_default (T:=T)) x y = Ok (CellRef x y) ∧
     load (Grid_default (T:=T)) (CellRef x y) = Some None).
Proof.
  assert (Habsent : ∀ w h x y, x < w → y < h →
            at_ (Grid_ctor (T:=T) w h) x y = Ok (CellRef x y) ∧
            load (Grid_ctor (T:=T) w h) (CellRef x y) = Some None).
  { intros w0 h0 x y Hx Hy. split.
    - unfold at_. by apply at_const_ok; [apply Grid_ctor_inv|..].
    - by apply cell_ctor. }
  split; [done|]. do 2 (split; [done|]). split; [apply Grid_ctor_inv|].
  split; [by apply Habsent|]. split.
  - intros Hzero x y. unfold at_.
    rewrite at_const_throw by (simpl; lia). split; by eexists.
  - do 2 (split; [done|]). by apply Habsent.
Qed.

Lemma Grid_ctor_spec_witness :
  at_ (Grid_ctor (T:=Z) 2 3) 1 2 = Ok (CellRef 1 2) ∧
  load (Grid_ctor (T:=Z) 2 3) (CellRef 1 2) = Some None ∧
  throws (at_ (Grid_ctor (T:=Z) 0 3) 0 0).
Proof.
  pose proof (Grid_ctor_spec (T:=Z) 2 3) as (_ & _ & _ & _ & Hin & _).
  pose proof (Grid_ctor_spec (T:=Z) 0 3) as (_ & _ & _ & _ & _ & Hzero & _).
  destruct (Hin 1 2) as [Hat Hload]; [lia..|].
  destruct (Hzero (or_introl eq_refl) 0 0) as [Hthrow _].
  exact (conj Hat (conj Hload Hthrow)).
Defined.

(** C4. On a well-formed grid, for every in-bounds (x, y) and every
    value v, the assignment at(x, y) = v succeeds, and a subsequent
    at(x, y) on the grid yields a present cell holding v; the same read
    through the variable that holds the grid. *)
Theorem assign_then_read {T} (g : Grid T) (x y : N) (v : T) :
  Grid_inv g → x < getWidth g → y < getHeight g →
  (∃ g', assign_at g x y (Some v) = Ok g' ∧
         ∃ r, at_ g' x y = Ok r ∧ load g' r = Some (Some v)) ∧
  (∀ a (σ : gmap string (Grid T)), σ !! a = Some g →
     ∃ σ', stmt_assign_at a x y (Some v) σ = (Ok (), σ') ∧
           ∃ r, call_at a x y σ' = (Ok r, σ') ∧ deref r σ' = Some (Some v)).
Proof.
  unfold getWidth, getHeight. intros Hg Hx Hy.
  set (g' := store g (CellRef x y) (Some v)).
  assert (Hg' : Grid_inv g') by by apply store_inv.
  assert (Hat : at_ g' x y = Ok (CellRef x y)) by by apply at_const_ok.
  assert (Hload : load g' (CellRef x y) = Some (Some v)).
  { apply cell_store_eq. by apply cell_is_Some. }
  split.
  - exists g'. split; [by apply assign_at_ok|]. by exists (CellRef x y).
  - intros a σ Hσ. exists (<[a := g']> σ).
    unfold stmt_assign_at, call_at, assign_ref, deref. rewrite Hσ.
    unfold at_ in *. rewrite at_const_ok by done. simpl. rewrite Hσ.
    split; [done|]. exists (ObjRef a (CellRef x y)).
    rewrite lookup_insert_eq, Hat. simpl. rewrite lookup_insert_eq. done.
Qed.

Lemma assign_then_read_witness :
  (∃ g', assign_at ones_3x3 2 1 (Some 7%Z) = Ok g' ∧
         ∃ r, at_ g' 2 1 = Ok r ∧ load g' r = Some (Some 7%Z)) ∧
  (∀ a (σ : gmap string (Grid Z)), σ !! a = Some ones_3x3 →
     ∃ σ', stmt_assign_at a 2 1 (Some 7%Z) σ = (Ok (), σ') ∧
           ∃ r, call_at a 2 1 σ' = (Ok r, σ') ∧ deref r σ' = Some (Some 7%Z)).
Proof.
  apply (assign_then_read ones_3x3 2 1 7%Z).
  - split; [reflexivity|repeat constructor].
  - reflexivity.
  - reflexivity.
Defined.

(** C5 fails on the code.  Move-constructing from a 2 × 2 grid leaves
    the source with getWidth() = getHeight() = 2 and an empty table: the
    invariant is broken, and at(0, 0) on the source passes the bounds
    check and then indexes the empty vector. *)
Theorem moved_from_source_ill_formed :
  let a := Grid_ctor (T:=Z) 2 2 in
  Grid_inv a ∧
  (Grid_move a).1 = a ∧
  getWidth (Grid_move a).2 = 2 ∧ getHeight (Grid_move a).2 = 2 ∧
  mCells (Grid_move a).2 = [] ∧
  ¬ Grid_inv (Grid_move a).2 ∧
  verifyCoordinate (Grid_move a).2 0 0 = Ok () ∧
  at_ (Grid_move a).2 0 0 = Undefined ∧
  let σ := (decl_move "b" "a" (<["a" := a]> ∅)).2 in
  σ !! "b" = Some a ∧
  call_getWidth "a" σ = (Ok 2, σ) ∧
  call_at "a" 0 0 σ = (Undefined, σ).
Proof.
  simpl. split; [apply Grid_ctor_inv|].
  do 4 (split; [reflexivity|]).
  split; [intros [Hlen _]; simpl in Hlen; lia|].
  do 2 (split; [reflexivity|]).
  split; [|split]; by vm_compute.
Qed.

(** The getters across the statements that leave the dimensions alone:
    an assignment through [at], on any variable and whether it throws or
    not, changes neither member of any object. *)
Lemma getters_after_assign_at {T} (a c : string) (x y : N) (v : option T)
    (σ : gmap string (Grid T)) (g : Grid T) :
  σ !! a = Some g →
  ∃ g', (stmt_assign_at c x y v σ).2 !! a = Some g' ∧
        mWidth g' = mWidth g ∧ mHeight g' = mHeight g.
Proof.
  intros Hσ. unfold stmt_assign_at, call_at, assign_ref.
  destruct (σ !! c) as [gc|] eqn:Hc; [|by exists g].
  destruct (at_ gc x y) as [r| |]; simpl; [|by exists g..].
  rewrite Hc. simpl. destruct (decide (c = a)) as [->|Hne].
  - rewrite lookup_insert_eq. simplify_eq. by eexists.
  - rewrite lookup_insert_ne by done. by exists g.
Qed.

(** C6 does not hold as stated: getWidth() and getHeight() do not always
    return the dimensions the grid was constructed with.  A grid [b]
    constructed 3 × 3 and then assigned the 2 × 4 grid [a] with the
    defaulted copy assignment operator reports width 2 and height 4. *)
Lemma getters_follow_copy_assignment :
  let σ1 := (decl_ctor "b" 3 3 {["a" := twos_2x4]}).2 in
  let σ2 := (assign_copy "b" "a" σ1).2 in
  call_getWidth "b" σ1 = (Ok 3, σ1) ∧
  call_getHeight "b" σ1 = (Ok 3, σ1) ∧
  (assign_copy "b" "a" σ1).1 = Ok () ∧
  call_getWidth "b" σ2 = (Ok 2, σ2) ∧
  call_getHeight "b" σ2 = (Ok 4, σ2) ∧
  (call_getWidth "b" σ2).1 ≠ (call_getWidth "b" σ1).1.
Proof. repeat split; by vm_compute. Qed.

(** C6, amended. An exception thrown by at, through either overload, is
    the out-of-range error.  getWidth() and getHeight() return the
    members and leave every object as it was; after construction they
    return the constructor's arguments; an assignment through at, on
    any variable and whether it throws or not, changes them on no
    object; a copy gets the dimensions of its source, and a grid that is
    the target of a copy assignment reports the dimensions of the
    right-hand side from then on, while the right-hand side keeps its
    own.  Construction and copying succeed; operator+ throws on no
    operands at all, and succeeds on well-formed ones. *)
Theorem only_at_can_throw {T} (T_add : T → T → T) :
  (∀ (g : Grid T) x y e,
     at_ g x y = Throw e ∨ at_const g x y = Throw e →
     e = StdExcept out_of_range "") ∧
  (∀ a (σ : gmap string (Grid T)) g, σ !! a = Some g →
     call_getWidth a σ = (Ok (mWidth g), σ) ∧
     call_getHeight a σ = (Ok (mHeight g), σ)) ∧
  (∀ a w h (σ : gmap string (Grid T)),
     ∃ σ', decl_ctor a w h σ = (Ok (), σ') ∧
           call_getWidth a σ' = (Ok w, σ') ∧
           call_getHeight a σ' = (Ok h, σ')) ∧
  (∀ (g : Grid T) r v,
     getWidth (store g r v) = getWidth g ∧
     getHeight (store g r v) = getHeight g) ∧
  (∀ a c x y v (σ : gmap string (Grid T)) g, σ !! a = Some g →
     let σ' := (stmt_assign_at c x y v σ).2 in
     call_getWidth a σ' = (Ok (mWidth g), σ') ∧
     call_getHeight a σ' = (Ok (mHeight g), σ')) ∧
  (∀ a b (σ : gmap string (Grid T)) g, σ !! a = Some g →
     decl_copy b a σ = (Ok (), <[b := g]> σ) ∧
     (is_Some (σ !! b) → assign_copy b a σ = (Ok (), <[b := g]> σ))) ∧
  (∀ a b (σ : gmap string (Grid T)) g, σ !! a = Some g →
     let σ' := (decl_copy b a σ).2 in
     call_getWidth b σ' = (Ok (mWidth g), σ') ∧
     call_getHeight b σ' = (Ok (mHeight g), σ') ∧
     call_getWidth a σ' = (Ok (mWidth g), σ') ∧
     call_getHeight a σ' = (Ok (mHeight g), σ')) ∧
  (∀ a b (σ : gmap string (Grid T)) g, σ !! a = Some g → is_Some (σ !! b) →
     let σ' := (assign_copy b a σ).2 in
     call_getWidth b σ' = (Ok (mWidth g), σ') ∧
     call_getHeight b σ' = (Ok (mHeight g), σ') ∧
     call_getWidth a σ' = (Ok (mWidth g), σ') ∧
     call_getHeight a σ' = (Ok (mHeight g), σ')) ∧
  (∀ (A B : Grid T) e, operator_plus T_add A B ≠ Throw e) ∧
  (∀ A B : Grid T, Grid_inv A → Grid_inv B →
     succeeds (operator_plus T_add A B) ∧
     ∀ c a b (σ : gmap string (Grid T)),
       σ !! a = Some A → σ !! b = Some B →
       (decl_plus T_add c a b σ).1 = Ok ()).
Proof.
  assert (Hcopied : ∀ a b (σ : gmap string (Grid T)) g, σ !! a = Some g →
            call_getWidth b (<[b := g]> σ) = (Ok (mWidth g), <[b := g]> σ) ∧
            call_getHeight b (<[b := g]> σ) = (Ok (mHeight g), <[b := g]> σ) ∧
            call_getWidth a (<[b := g]> σ) = (Ok (mWidth g), <[b := g]> σ) ∧
            call_getHeight a (<[b := g]> σ) = (Ok (mHeight g), <[b := g]> σ)).
  { intros a b σ g Hσ. unfold call_getWidth, call_getHeight.
    rewrite lookup_insert_eq. do 2 (split; [done|]).
    destruct (decide (b = a)) as [->|Hne].
    - by rewrite lookup_insert_eq.
    - by rewrite lookup_insert_ne, Hσ by done. }
  split.
  { intros g x y e. unfold at_. intros He.
    assert (Hc : at_const g x y = Throw e) by by destruct He.
    unfold at_const, verifyCoordinate in Hc.
    destruct (_ || _); simpl in Hc; [by simplify_eq|].
    rewrite table_index_cell in Hc. by destruct (cell g x y). }
  split.
  { intros a σ g Hσ. unfold call_getWidth, call_getHeight. by rewrite Hσ. }
  split.
  { intros a w h σ. eexists. split; [done|].
    unfold call_getWidth, call_getHeight. by rewrite lookup_insert_eq. }
  split; [done|]. split.
  { intros a c x y v σ g Hσ. simpl.
    destruct (getters_after_assign_at a c x y v σ g Hσ) as (g' & Hg' & Hw & Hh).
    unfold call_getWidth, call_getHeight, getWidth, getHeight.
    by rewrite Hg', Hw, Hh. }
  split.
  { intros a b σ g Hσ. unfold decl_copy, assign_copy.
    rewrite Hσ, Grid_copy_eq. split; [done|]. by intros [g0 ->]. }
  split.
  { intros a b σ g Hσ. simpl. unfold decl_copy. rewrite Hσ, Grid_copy_eq.
    by apply Hcopied. }
  split.
  { intros a b σ g Hσ [g0 Hb]. simpl. unfold assign_copy.
    rewrite Hσ, Hb, Grid_copy_eq. by apply Hcopied. }
  split; [intros A B e; apply operator_plus_no_throw|].
  intros A B HA HB.
  destruct (operator_plus_ok T_add A B HA HB) as (R & HR & _).
  split; [by exists R|].
  intros c a b σ Ha Hb. unfold decl_plus. by rewrite Ha, Hb, HR.
Qed.

Lemma only_at_can_throw_witness :
  succeeds (operator_plus Z.add ones_3x3 twos_2x4) ∧
  call_getWidth "a" {["a" := twos_2x4]} = (Ok 2, {["a" := twos_2x4]}) ∧
  (let σ' := (assign_copy "b" "a" {["a" := twos_2x4; "b" := ones_3x3]}).2 in
   call_getWidth "b" σ' = (Ok (mWidth twos_2x4), σ') ∧
   call_getHeight "b" σ' = (Ok (mHeight twos_2x4), σ') ∧
   call_getWidth "a" σ' = (Ok (mWidth twos_2x4), σ') ∧
   call_getHeight "a" σ' = (Ok (mHeight twos_2x4), σ')) ∧
  (let σ' := (stmt_assign_at "b" 0 0 None {["a" := twos_2x4; "b" := ones_3x3]}).2 in
   call_getWidth "b" σ' = (Ok (mWidth ones_3x3), σ') ∧
   call_getHeight "b" σ' = (Ok (mHeight ones_3x3), σ')).
Proof.
  pose proof (only_at_can_throw Z.add)
    as (_ & Hget & _ & _ & Hat & _ & _ & Hassign & _ & Hplus).
  split; [|split; [|split]].
  - apply (Hplus ones_3x3 twos_2x4); (split; [reflexivity|repeat constructor]).
  - apply (Hget "a" {["a" := twos_2x4]} twos_2x4). reflexivity.
  - apply (Hassign "a" "b" {["a" := twos_2x4; "b" := ones_3x3]} twos_2x4).
    + reflexivity.
    + eexists. reflexivity.
  - apply (Hat "b" "b" 0 0 None {["a" := twos_2x4; "b" := ones_3x3]} ones_3x3).
    reflexivity.
Defined.

(** C7. After [Grid<T> b(a);] the new object holds the same table as
    [a]; an assignment through [b.at] leaves the whole of [a] as it
    was, and an assignment through [a.at] leaves the whole of [b] as it
    was, whatever the coordinates and the value, and also when the call
    throws. *)
Theorem copy_is_independent {T} (a b : string) (σ : gmap string (Grid T))
    (gA : Grid T) :
  a ≠ b → σ !! a = Some gA →
  ∃ σ1, decl_copy b a σ = (Ok (), σ1) ∧
        σ1 !! a = Some gA ∧ σ1 !! b = Some gA ∧
        ∀ x y v,
          (stmt_assign_at b x y v σ1).2 !! a = Some gA ∧
          (stmt_assign_at a x y v σ1).2 !! b = Some gA ∧
          (∀ x' y', (g ← (stmt_assign_at b x y v σ1).2 !! a; cell g x' y')
                    = cell gA x' y') ∧
          (∀ x' y', (g ← (stmt_assign_at a x y v σ1).2 !! b; cell g x' y')
                    = cell gA x' y').
Proof.
  intros Hne Hσ. exists (<[b := gA]> σ).
  unfold decl_copy. rewrite Hσ, Grid_copy_eq. split; [done|].
  assert (Ha : <[b := gA]> σ !! a = Some gA) by by rewrite lookup_insert_ne.
  assert (Hb : <[b := gA]> σ !! b = Some gA) by by rewrite lookup_insert_eq.
  do 2 (split; [done|]). intros x y v.
  assert (Hframe : ∀ c d, c ≠ d → <[b := gA]> σ !! c = Some gA →
            <[b := gA]> σ !! d = Some gA →
            (stmt_assign_at c x y v (<[b := gA]> σ)).2 !! d = Some gA).
  { intros c d Hcd Hc Hd. unfold stmt_assign_at, call_at, assign_ref.
    rewrite Hc. destruct (at_ gA x y) as [r| |]; simpl; [|done..].
    rewrite Hc. simpl. by rewrite lookup_insert_ne. }
  pose proof (Hframe b a (not_eq_sym Hne) Hb Ha) as H1.
  pose proof (Hframe a b Hne Ha Hb) as H2.
  do 2 (split; [done|]). split; intros x' y'; by rewrite ?H1, ?H2.
Qed.

Lemma copy_is_independent_witness :
  ∃ σ1, decl_copy "b" "a" {["a" := ones_3x3]} = (Ok (), σ1) ∧
        σ1 !! "a" = Some ones_3x3 ∧ σ1 !! "b" = Some ones_3x3 ∧
        ∀ x y v,
          (stmt_assign_at "b" x y v σ1).2 !! "a" = Some ones_3x3 ∧
          (stmt_assign_at "a" x y v σ1).2 !! "b" = Some ones_3x3 ∧
          (∀ x' y', (g ← (stmt_assign_at "b" x y v σ1).2 !! "a"; cell g x' y')
                    = cell ones_3x3 x' y') ∧
          (∀ x' y', (g ← (stmt_assign_at "a" x y v σ1).2 !! "b"; cell g x' y')
                    = cell ones_3x3 x' y').
Proof.
  apply (copy_is_independent "a" "b" {["a" := ones_3x3]} ones_3x3).
  - discriminate.
  - reflexivity.
Defined.

(** C8. The mutable overload of at is the read-only overload: the two
    have the same outcome at every grid and coordinate, so they throw at
    the same coordinates and return the same reference, into the same
    object; on a well-formed grid both do what the specification asks of
    at. *)
Theorem at_overloads_agree {T} (g : Grid T) (x y : N) :
  at_ g x y = at_const g x y ∧
  (throws (at_ g x y) ↔ throws (at_const g x y)) ∧
  (∀ r, at_ g x y = Ok r ↔ at_const g x y = Ok r) ∧
  (∀ a (σ : gmap string (Grid T)), call_at a x y σ = call_at_const a x y σ) ∧
  (Grid_inv g → at_ g x y = at_spec g x y ∧ at_const g x y = at_spec g x y).
Proof.
  split; [done|]. split; [done|]. split; [done|]. split; [done|].
  intros Hg. unfold at_, at_spec, getWidth, getHeight.
  case_decide as Hout.
  - by rewrite at_const_throw.
  - by rewrite at_const_ok by (done || lia).
Qed.

Lemma at_overloads_agree_witness :
  at_ ones_3x3 2 2 = at_spec ones_3x3 2 2 ∧
  at_const ones_3x3 2 3 = at_spec ones_3x3 2 3.
Proof.
  pose proof (at_overloads_agree ones_3x3 2 2) as (_ & _ & _ & _ & Hin).
  pose proof (at_overloads_agree ones_3x3 2 3) as (_ & _ & _ & _ & Hout).
  split.
  - apply Hin. split; [reflexivity|repeat constructor].
  - apply Hout. split; [reflexivity|repeat constructor].
Defined.

(** C9. When T's addition is commutative, A + B and B + A succeed on
    well-formed grids and give the same grid: the same dimensions and,
    at every coordinate, the same cell. *)
Theorem operator_plus_commutative {T} (T_add : T → T → T) (A B : Grid T) :
  (∀ a b, T_add a b = T_add b a) →
  Grid_inv A → Grid_inv B →
  ∃ R1 R2, operator_plus T_add A B = Ok R1 ∧
           operator_plus T_add B A = Ok R2 ∧
           getWidth R1 = getWidth R2 ∧ getHeight R1 = getHeight R2 ∧
           (∀ x y, cell R1 x y = cell R2 x y) ∧
           R1 = R2.
Proof.
  intros Hcomm HA HB.
  destruct (operator_plus_ok T_add A B HA HB) as (R & HR & _).
  exists R, R. rewrite <- (operator_plus_swap T_add A B Hcomm). done.
Qed.

Lemma operator_plus_commutative_witness :
  ∃ R1 R2, operator_plus Z.add fives_2x2_hole twos_2x4 = Ok R1 ∧
           operator_plus Z.add twos_2x4 fives_2x2_hole = Ok R2 ∧
           getWidth R1 = getWidth R2 ∧ getHeight R1 = getHeight R2 ∧
           (∀ x y, cell R1 x y = cell R2 x y) ∧
           R1 = R2.
Proof.
  apply (operator_plus_commutative Z.add fives_2x2_hole twos_2x4).
  - intros a b. lia.
  - split; [reflexivity|repeat constructor].
  - split; [reflexivity|repeat constructor].
Defined.

(** C10. A + B depends only on the operands' dimensions and on their
    cells inside the overlap: operands with the same dimensions that
    agree on every cell (x, y) with x < min of the widths and y < min of
    the heights have the same sum. *)
Theorem operator_plus_overlap_only {T} (T_add : T → T → T)
    (A A' B B' : Grid T) :
  getWidth A = getWidth A' → getHeight A = getHeight A' →
  getWidth B = getWidth B' → getHeight B = getHeight B' →
  (∀ x y, x < N.min (getWidth A) (getWidth B) →
          y < N.min (getHeight A) (getHeight B) →
          cell A x y = cell A' x y ∧ cell B x y = cell B' x y) →
  operator_plus T_add A B = operator_plus T_add A' B'.
Proof. apply operator_plus_agree. Qed.

Lemma operator_plus_overlap_only_witness :
  operator_plus Z.add corner_a single_4 = operator_plus Z.add corner_b single_4.
Proof.
  apply (operator_plus_overlap_only Z.add corner_a corner_b single_4 single_4);
    try reflexivity.
  intros x y Hx Hy.
  change (x < 1) in Hx. change (y < 1) in Hy.
  assert (x = 0) as -> by lia.
  assert (y = 0) as -> by lia.
  split; reflexivity.
Defined.


(** * Further properties of the grid *)

Section GridMore.
Context {T : Type}.
Implicit Types (g : Grid T) (x y : N) (v : option T).

Lemma store_store_eq g x y v1 v2 :
  Grid_inv g → x < mWidth g → y < mHeight g →
  store (store g (CellRef x y) v1) (CellRef x y) v2 = store g (CellRef x y) v2.
Proof.
  intros Hg Hx Hy. apply Grid_ext; [by do 2 apply store_inv|by apply store_inv|done..|].
  intros x' y' _ _. destruct (decide ((x, y) = (x', y'))) as [[= <- <-]|Hne].
  - rewrite !cell_store_eq; [done|by apply cell_is_Some|].
    apply cell_is_Some; [by apply store_inv|done..].
  - by rewrite !cell_store_ne.
Qed.

Lemma store_store_ne g x y v x' y' v' :
  Grid_inv g → x < mWidth g → y < mHeight g →
  x' < mWidth g → y' < mHeight g → (x, y) ≠ (x', y') →
  store (store g (CellRef x y) v) (CellRef x' y') v'
  = store (store g (CellRef x' y') v') (CellRef x y) v.
Proof.
  intros Hg Hx Hy Hx' Hy' Hne.
  apply Grid_ext; [by do 2 apply store_inv..|done|done|].
  intros x0 y0 _ _.
  destruct (decide ((x', y') = (x0, y0))) as [[= <- <-]|Hne1].
  - rewrite cell_store_eq by (apply cell_is_Some; [by apply store_inv|done..]).
    rewrite cell_store_ne by done.
    by rewrite cell_store_eq by by apply cell_is_Some.
  - rewrite (cell_store_ne _ x' y') by done.
    destruct (decide ((x, y) = (x0, y0))) as [[= <- <-]|Hne2].
    + rewrite !cell_store_eq; [done| |by apply cell_is_Some].
      apply cell_is_Some; [by apply store_inv|done..].
    + by rewrite !cell_store_ne.
Qed.
End GridMore.

(** X1. On a well-formed grid an in-bounds assignment through at,
    of a value or of the disengaged optional, succeeds, keeps the grid
    well-formed with the same dimensions, makes the cell at (x, y) hold
    what was assigned and leaves every other cell as it was. *)
Theorem assign_at_frame {T} (g : Grid T) (x y : N) (v : option T) :
  Grid_inv g → x < getWidth g → y < getHeight g →
  ∃ g', assign_at g x y v = Ok g' ∧
        Grid_inv g' ∧
        getWidth g' = getWidth g ∧ getHeight g' = getHeight g ∧
        cell g' x y = Some v ∧
        ∀ x' y', (x', y') ≠ (x, y) → cell g' x' y' = cell g x' y'.
Proof.
  unfold getWidth, getHeight. intros Hg Hx Hy.
  exists (store g (CellRef x y) v).
  split; [by apply assign_at_ok|]. split; [by apply store_inv|].
  do 2 (split; [done|]). split.
  - apply cell_store_eq. by apply cell_is_Some.
  - intros x' y' Hne. apply cell_store_ne. congruence.
Qed.

Lemma assign_at_frame_witness :
  ∃ g', assign_at fives_2x2_hole 1 0 None = Ok g' ∧
        Grid_inv g' ∧
        getWidth g' = getWidth fives_2x2_hole ∧
        getHeight g' = getHeight fives_2x2_hole ∧
        cell g' 1 0 = Some None ∧
        ∀ x' y', (x', y') ≠ (1, 0) → cell g' x' y' = cell fives_2x2_hole x' y'.
Proof.
  apply (assign_at_frame fives_2x2_hole 1 0 None).
  - split; [reflexivity|repeat constructor].
  - reflexivity.
  - reflexivity.
Defined.

(** X2. On a well-formed grid, of two in-bounds assignments through at
    to the same cell the second one wins, and two assignments to
    different cells give the same grid in either order. *)
Theorem assign_at_twice {T} (g : Grid T) (x y x' y' : N) (v v' : option T) :
  Grid_inv g →
  x < getWidth g → y < getHeight g → x' < getWidth g → y' < getHeight g →
  (g1 ← assign_at g x y v; assign_at g1 x y v') = assign_at g x y v' ∧
  ((x, y) ≠ (x', y') →
   (g1 ← assign_at g x y v; assign_at g1 x' y' v')
   = (g1 ← assign_at g x' y' v'; assign_at g1 x y v)).
Proof.
  unfold getWidth, getHeight. intros Hg Hx Hy Hx' Hy'.
  rewrite !assign_at_ok by done. simpl.
  rewrite !assign_at_ok by (by apply store_inv || done).
  split.
  - by rewrite store_store_eq.
  - intros Hne. by rewrite store_store_ne.
Qed.

Lemma assign_at_twice_witness :
  (g1 ← assign_at ones_3x3 0 1 (Some 4%Z); assign_at g1 0 1 None)
  = assign_at ones_3x3 0 1 None ∧
  ((0, 1) ≠ (2, 2) →
   (g1 ← assign_at ones_3x3 0 1 (Some 4%Z); assign_at g1 2 2 None)
   = (g1 ← assign_at ones_3x3 2 2 None; assign_at g1 0 1 (Some 4%Z))).
Proof.
  apply (assign_at_twice ones_3x3 0 1 2 2 (Some 4%Z) None); try reflexivity.
  split; [reflexivity|repeat constructor].
Defined.

(** X3. When T's addition is associative, so is operator+ on
    well-formed grids: (A + B) + C and A + (B + C) both succeed and are
    the same grid. *)
Theorem operator_plus_assoc {T} (T_add : T → T → T) (A B C : Grid T) :
  (∀ a b c, T_add (T_add a b) c = T_add a (T_add b c)) →
  Grid_inv A → Grid_inv B → Grid_inv C →
  ∃ AB BC R, operator_plus T_add A B = Ok AB ∧
             operator_plus T_add AB C = Ok R ∧
             operator_plus T_add B C = Ok BC ∧
             operator_plus T_add A BC = Ok R.
Proof.
  intros Hassoc HA HB HC.
  destruct (operator_plus_ok T_add A B HA HB) as (AB & HAB & HiAB & HwAB & HhAB & HcAB).
  destruct (operator_plus_ok T_add B C HB HC) as (BC & HBC & HiBC & HwBC & HhBC & HcBC).
  destruct (operator_plus_ok T_add AB C HiAB HC) as (R & HR & HiR & HwR & HhR & HcR).
  destruct (operator_plus_ok T_add A BC HA HiBC) as (R' & HR' & HiR' & HwR' & HhR' & HcR').
  exists AB, BC, R. do 3 (split; [done|]). rewrite HR'. f_equal.
  apply Grid_ext; [done|done|lia|lia|]. intros x y Hx Hy.
  destruct (cell_is_Some A x y HA) as [a Ha]; [lia..|].
  destruct (cell_is_Some B x y HB) as [b Hb]; [lia..|].
  destruct (cell_is_Some C x y HC) as [c Hc]; [lia..|].
  rewrite (HcR' x y a (cell_sum T_add b c)); [|done|done|done|apply HcBC; done || lia].
  rewrite (HcR x y (cell_sum T_add a b) c); [|lia|lia|apply HcAB; done || lia|done].
  destruct a, b, c; simpl; by rewrite ?Hassoc.
Qed.

Lemma operator_plus_assoc_witness :
  ∃ AB BC R, operator_plus Z.add ones_3x3 twos_2x4 = Ok AB ∧
             operator_plus Z.add AB fives_2x2_hole = Ok R ∧
             operator_plus Z.add twos_2x4 fives_2x2_hole = Ok BC ∧
             operator_plus Z.add ones_3x3 BC = Ok R.
Proof.
  apply (operator_plus_assoc Z.add ones_3x3 twos_2x4 fives_2x2_hole).
  - intros a b c. lia.
  - split; [reflexivity|repeat constructor].
  - split; [reflexivity|repeat constructor].
  - split; [reflexivity|repeat constructor].
Defined.

(** X4. Adding a freshly constructed grid, on either side, to a
    well-formed grid gives the grid of absent cells over the overlap:
    the result is the grid the constructor builds for the smaller width
    and the smaller height. *)
Theorem operator_plus_fresh {T} (T_add : T → T → T) (A : Grid T) (w h : N) :
  Grid_inv A →
  operator_plus T_add A (Grid_ctor w h)
  = Ok (Grid_ctor (N.min (getWidth A) w) (N.min (getHeight A) h)) ∧
  operator_plus T_add (Grid_ctor w h) A
  = Ok (Grid_ctor (N.min w (getWidth A)) (N.min h (getHeight A))).
Proof.
  intros HA. unfold getWidth, getHeight.
  pose proof (Grid_ctor_inv (T:=T) w h) as HF.
  destruct (operator_plus_ok T_add A _ HA HF) as (R & -> & HiR & HwR & HhR & HcR).
  destruct (operator_plus_ok T_add _ A HF HA) as (R' & -> & HiR' & HwR' & HhR' & HcR').
  simpl in *. split; f_equal.
  - apply Grid_ext; [done|apply Grid_ctor_inv|done|done|].
    intros x y Hx Hy. rewrite cell_ctor by lia.
    destruct (cell_is_Some A x y HA) as [a Ha]; [lia..|].
    rewrite (HcR x y a None); [by destruct a|done|done|done|].
    apply cell_ctor; lia.
  - apply Grid_ext; [done|apply Grid_ctor_inv|done|done|].
    intros x y Hx Hy. rewrite cell_ctor by lia.
    destruct (cell_is_Some A x y HA) as [a Ha]; [lia..|].
    rewrite (HcR' x y None a); [done|done|done| |done].
    apply cell_ctor; lia.
Qed.

Lemma operator_plus_fresh_witness :
  operator_plus Z.add twos_2x4 (Grid_ctor 3 3)
  = Ok (Grid_ctor (N.min (getWidth twos_2x4) 3) (N.min (getHeight twos_2x4) 3)) ∧
  operator_plus Z.add (Grid_ctor 3 3) twos_2x4
  = Ok (Grid_ctor (N.min 3 (getWidth twos_2x4)) (N.min 3 (getHeight twos_2x4))).
Proof.
  apply (operator_plus_fresh Z.add twos_2x4 3 3).
  split; [reflexivity|repeat constructor].
Defined.

(** X5. After a move construction the source keeps its dimensions, so
    at on it still throws out_of_range outside them; at every coordinate
    inside them the bounds check passes and the access into the emptied
    table is undefined. *)
Theorem moved_from_at {T} (g : Grid T) (x y : N) :
  getWidth (Grid_move g).2 = getWidth g ∧
  getHeight (Grid_move g).2 = getHeight g ∧
  (x < getWidth g → y < getHeight g →
   at_ (Grid_move g).2 x y = Undefined ∧
   at_const (Grid_move g).2 x y = Undefined) ∧
  (getWidth g ≤ x ∨ getHeight g ≤ y →
   at_ (Grid_move g).2 x y = Throw (StdExcept out_of_range "")).
Proof.
  do 2 (split; [done|]). unfold getWidth, getHeight, at_. split.
  - intros Hx Hy. by rewrite at_const_inside by done.
  - intros Hout. by apply at_const_throw.
Qed.

Lemma moved_from_at_witness :
  at_ (Grid_move twos_2x4).2 1 3 = Undefined ∧
  at_ (Grid_move twos_2x4).2 2 3 = Throw (StdExcept out_of_range "").
Proof.
  pose proof (moved_from_at twos_2x4 1 3) as (_ & _ & Hin & _).
  pose proof (moved_from_at twos_2x4 2 3) as (_ & _ & _ & Hout).
  split.
  - apply Hin; reflexivity.
  - apply Hout. left. discriminate.
Defined.

(** X6. operator+ with a moved-from operand, on either side, is
    undefined as soon as the dimensions of the two operands overlap:
    the first iteration indexes the emptied table. *)
Theorem operator_plus_moved_from {T} (T_add : T → T → T) (A B : Grid T) :
  0 < getWidth A → 0 < getHeight A → 0 < getWidth B → 0 < getHeight B →
  operator_plus T_add (Grid_move A).2 B = Undefined ∧
  operator_plus T_add B (Grid_move A).2 = Undefined.
Proof.
  unfold getWidth, getHeight. intros HwA HhA HwB HhB.
  unfold operator_plus, for_upto, getWidth, getHeight. simpl.
  destruct (N.to_nat (N.min (mHeight A) (mHeight B))) as [|nh] eqn:Eh; [lia|].
  destruct (N.to_nat (N.min (mWidth A) (mWidth B))) as [|nw] eqn:Ew; [lia|].
  destruct (N.to_nat (N.min (mHeight B) (mHeight A))) as [|nh'] eqn:Eh'; [lia|].
  destruct (N.to_nat (N.min (mWidth B) (mWidth A))) as [|nw'] eqn:Ew'; [lia|].
  simpl. split; [done|].
  rewrite table_index_cell. by destruct (cell B 0 0).
Qed.

Lemma operator_plus_moved_from_witness :
  operator_plus Z.add (Grid_move ones_3x3).2 twos_2x4 = Undefined ∧
  operator_plus Z.add twos_2x4 (Grid_move ones_3x3).2 = Undefined.
Proof.
  apply (operator_plus_moved_from Z.add ones_3x3 twos_2x4); reflexivity.
Defined.

(** * The employee records *)

Import Records.

(** ** The search loop *)

Section RangeFor.
Context {A : Type} (test : A → bool).
Implicit Types (v : list A) (i r : N).

Lemma range_for_return_Some v i r :
  range_for_return test v i = Some r ↔
  ∃ k e, r = i + N.of_nat k ∧ v !! k = Some e ∧ test e = true ∧
         ∀ j e', (j < k)%nat → v !! j = Some e' → test e' = false.
Proof.
  revert i. induction v as [|a v IH]; intros i; simpl.
  - split; [done|]. by intros (k & e & _ & Hk & _).
  - destruct (test a) eqn:Ha.
    + split.
      * intros [= <-]. exists 0%nat, a. split; [lia|]. do 2 (split; [done|]).
        intros j e' Hj. lia.
      * intros (k & e & -> & Hk & He & Hb). destruct k as [|k]; [f_equal; lia|].
        rewrite (Hb 0%nat a) in Ha; [done|lia|done].
    + rewrite IH. split.
      * intros (k & e & -> & Hk & He & Hb). exists (S k), e.
        split; [lia|]. do 2 (split; [done|]).
        intros [|j] e' Hj Hl; simpl in Hl; [by simplify_eq|].
        apply (Hb j); [lia|done].
      * intros (k & e & -> & Hk & He & Hb). destruct k as [|k]; simpl in Hk.
        { congruence. }
        exists k, e. split; [lia|]. do 2 (split; [done|]).
        intros j e' Hj Hl. apply (Hb (S j)); [lia|done].
Qed.

Lemma range_for_return_None v i :
  range_for_return test v i = None ↔ Forall (λ e, test e = false) v.
Proof.
  revert i. induction v as [|a v IH]; intros i; simpl.
  - split; [constructor|done].
  - destruct (test a) eqn:Ha.
    + split; [done|]. intros Hall. apply Forall_cons in Hall as [Ht _]. congruence.
    + rewrite IH. split; [by constructor|]. by intros [_ ?]%Forall_cons.
Qed.

(** The reference returned is the index of the first element that
    passes the test. *)
Lemma range_for_return_first v r :
  range_for_return test v 0 = Some r ↔
  (∃ e, v !! N.to_nat r = Some e ∧ test e = true) ∧
  ∀ r' e', r' < r → v !! N.to_nat r' = Some e' → test e' = false.
Proof.
  rewrite range_for_return_Some. split.
  - intros (k & e & -> & Hk & He & Hb).
    replace (N.to_nat (0 + N.of_nat k)) with k by lia. split; [by exists e|].
    intros r' e' Hr'. apply Hb. lia.
  - intros [(e & Hk & He) Hb]. exists (N.to_nat r), e.
    split; [lia|]. do 2 (split; [done|]). intros j e' Hj Hl.
    apply (Hb (N.of_nat j)); [lia|]. by rewrite Nat2N.id.
Qed.

(** Appending an element does not change a search that succeeded; a
    search that failed finds the appended element when it passes. *)
Lemma range_for_return_app_Some v a i r :
  range_for_return test v i = Some r →
  range_for_return test (v ++ [a]) i = Some r.
Proof.
  revert i. induction v as [|b v IH]; intros i; simpl; [done|].
  destruct (test b); [done|]. apply IH.
Qed.

Lemma range_for_return_app_None v a i :
  range_for_return test v i = None →
  range_for_return test (v ++ [a]) i
  = if test a then Some (i + N.of_nat (length v)) else None.
Proof.
  revert i. induction v as [|b v IH]; intros i; simpl.
  - intros _. destruct (test a); [f_equal; lia|done].
  - destruct (test b); [done|]. intros Hn. rewrite IH by done.
    destruct (test a); [f_equal; lia|done].
Qed.
End RangeFor.

Section RecordsFacts.
Local Open Scope Z_scope.
Implicit Types (db : Database) (e : Employee) (r : N).

Lemma int_result_Ok z : int_range z → int_result z = Ok z.
Proof. intros Hz. unfold int_result. by rewrite decide_True. Qed.

Lemma int_result_overflow z : ¬ int_range z → int_result z = Undefined.
Proof. intros Hz. unfold int_result. by rewrite decide_False. Qed.

Lemma setSalary_getSalary e s : setSalary (setSalary e s) (getSalary e) = e.
Proof. by destruct e. Qed.

(** The search loop followed by the throw, for a test that decides [P]. *)
Lemma search_or_throw {A} (test : A → bool) (P : A → Prop) (v : list A)
    (x : exception) :
  (∀ a, test a = true ↔ P a) →
  let res := match range_for_return test v 0%N with
             | Some r => Ok r
             | None => Throw x
             end in
  (∀ r, res = Ok r ↔
        (∃ a, v !! N.to_nat r = Some a ∧ P a) ∧
        ∀ r' a', (r' < r)%N → v !! N.to_nat r' = Some a' → ¬ P a') ∧
  (res = Throw x ↔ ∀ a, a ∈ v → ¬ P a) ∧
  (∀ exn, res = Throw exn → exn = x) ∧
  res ≠ Undefined.
Proof.
  intros Htest.
  assert (Hfalse : ∀ a, test a = false ↔ ¬ P a).
  { intros a. rewrite <- Htest. by destruct (test a). }
  assert (Hfirst : ∀ r, range_for_return test v 0%N = Some r ↔
            (∃ a, v !! N.to_nat r = Some a ∧ P a) ∧
            ∀ r' a', (r' < r)%N → v !! N.to_nat r' = Some a' → ¬ P a').
  { intros r. rewrite range_for_return_first. split.
    - intros [(a & Ha & Ht) Hb]. split; [exists a; by rewrite <- Htest|].
      intros r' a' Hr' Ha'. apply Hfalse. by apply (Hb r').
    - intros [(a & Ha & Ht) Hb]. split; [exists a; by rewrite Htest|].
      intros r' a' Hr' Ha'. apply Hfalse. by apply (Hb r'). }
  assert (Hnone : range_for_return test v 0%N = None ↔ ∀ a, a ∈ v → ¬ P a).
  { rewrite range_for_return_None, Forall_forall. split.
    - intros H a Ha. apply Hfalse. by apply H.
    - intros H a Ha. apply Hfalse. by apply H. }
  simpl. destruct (range_for_return test v 0%N) as [r0|] eqn:E.
  - split; [|split; [|done]].
    + intros r. rewrite <- Hfirst. split; congruence.
    + split; [done|]. intros H. apply Hnone in H. congruence.
  - split; [|split; [|split; [congruence|done]]].
    + intros r. rewrite <- Hfirst. split; congruence.
    + split; [intros _; by apply Hnone|done].
Qed.

Lemma name_test e firstName lastName :
  (if String.eqb (getFirstName e) firstName
   then if String.eqb (getLastName e) lastName then true else false
   else false) = true
  ↔ getFirstName e = firstName ∧ getLastName e = lastName.
Proof.
  destruct (String.eqb_spec (getFirstName e) firstName) as [Hf|Hf],
           (String.eqb_spec (getLastName e) lastName) as [Hl|Hl];
    split; try done; intros [? ?]; done.
Qed.

Lemma addEmployee_Ok db firstName lastName :
  int_range (mNextEmployeeNumber db + 1) →
  addEmployee db firstName lastName
  = Ok (N.of_nat (length (mEmployees db)),
        {| mEmployees :=
             mEmployees db ++
             [{| mFirstName := firstName; mLastName := lastName;
                 mEmployeeNumber := mNextEmployeeNumber db;
                 mSalary := kDefaultStartingSalary; mHired := true |}];
           mNextEmployeeNumber := mNextEmployeeNumber db + 1 |}).
Proof.
  intros Hr. unfold addEmployee. rewrite int_result_Ok by done. simpl.
  unfold vec_index. rewrite length_app. simpl.
  replace (N.of_nat (length (mEmployees db) + 1) - 1)%N
    with (N.of_nat (length (mEmployees db))) by lia.
  rewrite Nat2N.id, list_lookup_middle by done. done.
Qed.

Lemma addEmployee_Ok_inv db firstName lastName r db' :
  addEmployee db firstName lastName = Ok (r, db') →
  int_range (mNextEmployeeNumber db + 1) ∧
  r = N.of_nat (length (mEmployees db)) ∧
  db' = {| mEmployees :=
             mEmployees db ++
             [{| mFirstName := firstName; mLastName := lastName;
                 mEmployeeNumber := mNextEmployeeNumber db;
                 mSalary := kDefaultStartingSalary; mHired := true |}];
           mNextEmployeeNumber := mNextEmployeeNumber db + 1 |}.
Proof.
  intros Hadd. destruct (decide (int_range (mNextEmployeeNumber db + 1))) as [Hr|Hr].
  - rewrite addEmployee_Ok in Hadd by done. by simplify_eq.
  - unfold addEmployee in Hadd. by rewrite int_result_overflow in Hadd.
Qed.

(** X7. A raise followed by a demerit of the same amount, or the
    reverse, restores the employee; promote with a negative amount is
    demote with the amount negated: the amounts are not validated. *)
Theorem promote_demote_round_trip (e : Employee) (amount : Z) :
  int_range (getSalary e) →
  (∀ e', promote e amount = Ok e' → demote e' amount = Ok e) ∧
  (∀ e', demote e amount = Ok e' → promote e' amount = Ok e) ∧
  promote e (- amount) = demote e amount.
Proof.
  intros Hs. unfold promote, demote. split; [|split].
  - intros e'. unfold int_result at 1. case_decide; [|done]. simpl. intros [= <-].
    simpl. replace (getSalary e + amount - amount) with (getSalary e) by lia.
    rewrite int_result_Ok by done. simpl. by rewrite setSalary_getSalary.
  - intros e'. unfold int_result at 1. case_decide; [|done]. simpl. intros [= <-].
    simpl. replace (getSalary e - amount + amount) with (getSalary e) by lia.
    rewrite int_result_Ok by done. simpl. by rewrite setSalary_getSalary.
  - by replace (getSalary e + - amount) with (getSalary e - amount) by lia.
Qed.

Lemma promote_demote_round_trip_witness :
  (∀ e', promote Employee_default 1000 = Ok e' →
         demote e' 1000 = Ok Employee_default) ∧
  (∀ e', demote Employee_default 1000 = Ok e' →
         promote e' 1000 = Ok Employee_default) ∧
  promote Employee_default (- 1000) = demote Employee_default 1000.
Proof.
  apply (promote_demote_round_trip Employee_default 1000).
  change (INT_MIN ≤ 30000 ≤ INT_MAX). unfold INT_MIN, INT_MAX. lia.
Defined.

(** X8. getEmployee(number) returns the reference to the first
    employee, in insertion order, that has the number; it throws
    logic_error("No employee found.") exactly when no employee has it,
    and nothing else can come out of it. *)
Theorem getEmployee_first_match (db : Database) (employeeNumber : Z) :
  (∀ r, getEmployee db employeeNumber = Ok r ↔
        (∃ e, employee_at db r = Some e ∧ getEmployeeNumber e = employeeNumber) ∧
        ∀ r' e', (r' < r)%N → employee_at db r' = Some e' →
                 getEmployeeNumber e' ≠ employeeNumber) ∧
  (getEmployee db employeeNumber = Throw (StdExcept logic_error "No employee found.")
   ↔ ∀ e, e ∈ mEmployees db → getEmployeeNumber e ≠ employeeNumber) ∧
  (∀ exn, getEmployee db employeeNumber = Throw exn →
          exn = StdExcept logic_error "No employee found.") ∧
  getEmployee db employeeNumber ≠ Undefined.
Proof.
  apply (search_or_throw _ (λ e, getEmployeeNumber e = employeeNumber)).
  intros e. apply bool_decide_eq_true.
Qed.

(** X9. getEmployee(firstName, lastName) returns the reference to the
    first employee, in insertion order, with both names; it throws
    logic_error("No employee found.") exactly when no employee has
    both, and nothing else can come out of it. *)
Theorem getEmployee_by_name_first_match (db : Database)
    (firstName lastName : string) :
  (∀ r, getEmployee_by_name db firstName lastName = Ok r ↔
        (∃ e, employee_at db r = Some e ∧
              getFirstName e = firstName ∧ getLastName e = lastName) ∧
        ∀ r' e', (r' < r)%N → employee_at db r' = Some e' →
                 ¬ (getFirstName e' = firstName ∧ getLastName e' = lastName)) ∧
  (getEmployee_by_name db firstName lastName
   = Throw (StdExcept logic_error "No employee found.")
   ↔ ∀ e, e ∈ mEmployees db →
          ¬ (getFirstName e = firstName ∧ getLastName e = lastName)) ∧
  (∀ exn, getEmployee_by_name db firstName lastName = Throw exn →
          exn = StdExcept logic_error "No employee found.") ∧
  getEmployee_by_name db firstName lastName ≠ Undefined.
Proof.
  apply (search_or_throw _
           (λ e, getFirstName e = firstName ∧ getLastName e = lastName)).
  intros e. apply name_test.
Qed.

(** X10. Unless the next employee number is INT_MAX, addEmployee
    appends one record with the given names, the next number, the
    default salary and the hired flag set, returns the reference to it,
    increments the next number and leaves the records already there in
    place. *)
Theorem addEmployee_appends (db : Database) (firstName lastName : string) :
  int_range (mNextEmployeeNumber db + 1) →
  ∃ r db' e,
    addEmployee db firstName lastName = Ok (r, db') ∧
    employee_at db' r = Some e ∧
    getFirstName e = firstName ∧ getLastName e = lastName ∧
    getEmployeeNumber e = mNextEmployeeNumber db ∧
    getSalary e = 30000 ∧ isHired e = true ∧
    mEmployees db' = mEmployees db ++ [e] ∧
    mNextEmployeeNumber db' = mNextEmployeeNumber db + 1 ∧
    ∀ r0 e0, employee_at db r0 = Some e0 → employee_at db' r0 = Some e0.
Proof.
  intros Hr. eexists _, _, _. split; [by apply addEmployee_Ok|].
  unfold employee_at. simpl. rewrite Nat2N.id.
  split; [by apply list_lookup_middle|]. do 7 (split; [done|]).
  intros r0 e0 H0. by apply lookup_app_l_Some.
Qed.

Lemma addEmployee_appends_witness :
  ∃ r db' e,
    addEmployee Database_default "Greg" "Wallis" = Ok (r, db') ∧
    employee_at db' r = Some e ∧
    getFirstName e = "Greg" ∧ getLastName e = "Wallis" ∧
    getEmployeeNumber e = mNextEmployeeNumber Database_default ∧
    getSalary e = 30000 ∧ isHired e = true ∧
    mEmployees db' = mEmployees Database_default ++ [e] ∧
    mNextEmployeeNumber db' = mNextEmployeeNumber Database_default + 1 ∧
    ∀ r0 e0, employee_at Database_default r0 = Some e0 →
             employee_at db' r0 = Some e0.
Proof.
  apply (addEmployee_appends Database_default "Greg" "Wallis").
  change (INT_MIN ≤ 1000 + 1 ≤ INT_MAX). unfold INT_MIN, INT_MAX. lia.
Defined.

(** ** Numbering *)

Lemma numbered_add db firstName lastName r db' :
  numbered db → addEmployee db firstName lastName = Ok (r, db') → numbered db'.
Proof.
  intros [Hnext Hnum] (_ & -> & ->)%addEmployee_Ok_inv.
  unfold numbered. simpl. rewrite length_app. simpl. split; [lia|].
  intros i e Hi. apply lookup_app_Some in Hi as [Hi|[Hlen Hi]].
  - by apply Hnum.
  - destruct (i - length (mEmployees db))%nat as [|k] eqn:Ek; simpl in Hi; [|done].
    simplify_eq. simpl. rewrite Hnext. f_equal. lia.
Qed.

Lemma numbered_update db r f :
  numbered db →
  (∀ e, employee_at db r = Some e → getEmployeeNumber (f e) = getEmployeeNumber e) →
  numbered (update_at db r f).
Proof.
  intros [Hnext Hnum] Hf. unfold numbered, update_at. simpl.
  rewrite length_alter. split; [done|]. intros i e Hi.
  rewrite list_lookup_alter in Hi. case_decide as Hd; [|by apply Hnum].
  subst i. unfold employee_at in Hf.
  destruct (mEmployees db !! N.to_nat r) as [e0|] eqn:E0; simplify_eq/=.
  rewrite Hf by done. by apply Hnum.
Qed.

Lemma numbered_lookup db n :
  numbered db →
  kFirstEmployeeNumber ≤ n < mNextEmployeeNumber db →
  getEmployee db n = Ok (Z.to_N (n - kFirstEmployeeNumber)).
Proof.
  intros [Hnext Hnum] Hn.
  pose proof (search_or_throw
    (λ employee, bool_decide (getEmployeeNumber employee = n))
    (λ e, getEmployeeNumber e = n) (mEmployees db)
    (StdExcept logic_error "No employee found.")
    (λ e, bool_decide_eq_true _)) as (Hok & _).
  apply Hok. split.
  - destruct (lookup_lt_is_Some_2 (mEmployees db)
                (N.to_nat (Z.to_N (n - kFirstEmployeeNumber)))) as [e He]; [lia|].
    exists e. split; [done|]. rewrite (Hnum _ _ He). lia.
  - intros r' e' Hr' He'. rewrite (Hnum _ _ He'). lia.
Qed.

Lemma numbered_lookup_none db n :
  numbered db →
  n < kFirstEmployeeNumber ∨ mNextEmployeeNumber db ≤ n →
  getEmployee db n = Throw (StdExcept logic_error "No employee found.").
Proof.
  intros [Hnext Hnum] Hn.
  pose proof (search_or_throw
    (λ employee, bool_decide (getEmployeeNumber employee = n))
    (λ e, getEmployeeNumber e = n) (mEmployees db)
    (StdExcept logic_error "No employee found.")
    (λ e, bool_decide_eq_true _)) as (_ & Hthrow & _).
  apply Hthrow. intros e [i Hi]%list_elem_of_lookup.
  rewrite (Hnum _ _ Hi). apply lookup_lt_Some in Hi. lia.
Qed.

Lemma getEmployee_outcome db n :
  (∃ r e, getEmployee db n = Ok r ∧ employee_at db r = Some e) ∨
  getEmployee db n = Throw (StdExcept logic_error "No employee found.").
Proof.
  pose proof (search_or_throw
    (λ employee, bool_decide (getEmployeeNumber employee = n))
    (λ e, getEmployeeNumber e = n) (mEmployees db)
    (StdExcept logic_error "No employee found.")
    (λ e, bool_decide_eq_true _)) as (Hok & _ & Hexn & Hub).
  fold (getEmployee db n) in Hok, Hexn, Hub.
  destruct (getEmployee db n) as [r|exn|] eqn:E; [left|right|done].
  - destruct (proj1 (Hok r) eq_refl) as [(e & He & _) _]. by exists r, e.
  - by rewrite (Hexn exn).
Qed.

Lemma employee_at_update db r f r0 :
  employee_at (update_at db r f) r0
  = if decide (r = r0) then f <$> employee_at db r0 else employee_at db r0.
Proof.
  unfold employee_at, update_at. simpl. rewrite list_lookup_alter.
  repeat case_decide; simplify_eq; done || lia.
Qed.

(** X11. In a database whose employees are numbered from 1000 in
    insertion order, addEmployee keeps the numbering, the number it
    gave is the old next number and getEmployee finds the new record
    under it; every number found before is still found at the same
    place. *)
Theorem addEmployee_getEmployee (db db' : Database)
    (firstName lastName : string) (r : N) :
  numbered db → addEmployee db firstName lastName = Ok (r, db') →
  numbered db' ∧
  getEmployee db' (mNextEmployeeNumber db) = Ok r ∧
  (∃ e, employee_at db' r = Some e ∧
        getFirstName e = firstName ∧ getLastName e = lastName ∧
        getEmployeeNumber e = mNextEmployeeNumber db) ∧
  ∀ n r0, getEmployee db n = Ok r0 → getEmployee db' n = Ok r0.
Proof.
  intros Hdb Hadd. pose proof (numbered_add _ _ _ _ _ Hdb Hadd) as Hdb'.
  split; [done|].
  pose proof Hadd as (Hr & -> & ->)%addEmployee_Ok_inv.
  destruct Hdb as [Hnext Hnum]. split; [|split].
  - rewrite numbered_lookup; [|done|simpl; unfold int_range in Hr; lia].
    f_equal. rewrite Hnext. lia.
  - eexists. unfold employee_at. simpl. rewrite Nat2N.id.
    split; [by apply list_lookup_middle|done].
  - intros n r0. unfold getEmployee. simpl.
    destruct (range_for_return _ (mEmployees db) 0%N) as [r1|] eqn:E; [|done].
    intros [= ->]. by rewrite (range_for_return_app_Some _ _ _ _ _ E).
Qed.

Lemma addEmployee_getEmployee_witness :
  numbered one_john_db ∧
  getEmployee one_john_db (mNextEmployeeNumber Database_default) = Ok 0%N ∧
  (∃ e, employee_at one_john_db 0%N = Some e ∧
        getFirstName e = "John" ∧ getLastName e = "Doe" ∧
        getEmployeeNumber e = mNextEmployeeNumber Database_default) ∧
  ∀ n r0, getEmployee Database_default n = Ok r0 →
          getEmployee one_john_db n = Ok r0.
Proof.
  apply (addEmployee_getEmployee Database_default one_john_db "John" "Doe" 0%N).
  - split; [reflexivity|]. intros i e Hi. destruct i; discriminate Hi.
  - reflexivity.
Defined.

(** X12. In a database whose employees are numbered from 1000 in
    insertion order, getEmployee(n) succeeds exactly for the numbers
    from 1000 up to the next number, with the reference to record
    n - 1000, and throws logic_error for every other number. *)
Theorem getEmployee_numbered (db : Database) (n : Z) :
  numbered db →
  (kFirstEmployeeNumber ≤ n < mNextEmployeeNumber db →
   getEmployee db n = Ok (Z.to_N (n - kFirstEmployeeNumber))) ∧
  (n < kFirstEmployeeNumber ∨ mNextEmployeeNumber db ≤ n →
   getEmployee db n = Throw (StdExcept logic_error "No employee found.")).
Proof.
  intros Hdb. split; [by apply numbered_lookup|by apply numbered_lookup_none].
Qed.

Lemma getEmployee_numbered_witness :
  getEmployee two_johns_db 1001 = Ok 1%N ∧
  getEmployee two_johns_db 1000 = Ok 0%N ∧
  getEmployee two_johns_db 1002
  = Throw (StdExcept logic_error "No employee found.") ∧
  getEmployee two_johns_db 999
  = Throw (StdExcept logic_error "No employee found.").
Proof.
  assert (Hnum : numbered two_johns_db).
  { split; [reflexivity|]. intros i e Hi.
    destruct i as [|[|i]]; [| |discriminate Hi];
      injection Hi as <-; reflexivity. }
  pose proof (getEmployee_numbered two_johns_db 1001 Hnum) as [Hsecond _].
  pose proof (getEmployee_numbered two_johns_db 1000 Hnum) as [Hfirst _].
  pose proof (getEmployee_numbered two_johns_db 1002 Hnum) as [_ Habove].
  pose proof (getEmployee_numbered two_johns_db 999 Hnum) as [_ Hbelow].
  split; [|split; [|split]].
  - apply Hsecond. change (1000 ≤ 1001 < 1002). lia.
  - apply Hfirst. change (1000 ≤ 1000 < 1002). lia.
  - apply Habove. right. change (1002 ≤ 1002). lia.
  - apply Hbelow. left. change (999 < 1000). lia.
Defined.

(** X13. The search by name stops at the first match: when an employee
    with the same two names is already there, the lookup after
    addEmployee still returns the older record and not the one just
    added; when there was none, it returns the new one. *)
Theorem addEmployee_same_name (db db' : Database)
    (firstName lastName : string) (r' : N) :
  addEmployee db firstName lastName = Ok (r', db') →
  (∀ r, getEmployee_by_name db firstName lastName = Ok r →
        getEmployee_by_name db' firstName lastName = Ok r ∧ r ≠ r') ∧
  (throws (getEmployee_by_name db firstName lastName) →
   getEmployee_by_name db' firstName lastName = Ok r').
Proof.
  intros (_ & -> & ->)%addEmployee_Ok_inv. unfold getEmployee_by_name. simpl.
  destruct (range_for_return _ (mEmployees db) 0%N) as [r1|] eqn:E.
  - split; [|by intros [? ?]]. intros r [= ->].
    rewrite (range_for_return_app_Some _ _ _ _ _ E). split; [done|].
    apply range_for_return_first in E as [(e & He & _) _].
    apply lookup_lt_Some in He. lia.
  - split; [done|]. intros _.
    rewrite (range_for_return_app_None _ _ _ _ E). simpl.
    rewrite !String.eqb_refl. f_equal.
Qed.

Lemma addEmployee_same_name_witness :
  (∀ r, getEmployee_by_name one_john_db "John" "Doe" = Ok r →
        getEmployee_by_name two_johns_db "John" "Doe" = Ok r ∧ r ≠ 1%N) ∧
  (throws (getEmployee_by_name one_john_db "John" "Doe") →
   getEmployee_by_name two_johns_db "John" "Doe" = Ok 1%N).
Proof.
  apply (addEmployee_same_name one_john_db two_johns_db "John" "Doe" 1%N).
  reflexivity.
Defined.

(** ** The menu handlers *)

(** X14. doFire never fails.  When an employee has the number read,
    the first such record gets its hired flag cleared, every other
    record and the next number stay as they are, and the confirmation
    goes to cout; when none has it, the database is unchanged and the
    message of the caught logic_error goes to cerr. *)
Theorem doFire_spec (db : Database) (employeeNumber : Z) :
  ∃ db' out,
    doFire db employeeNumber = Ok (db', out) ∧
    mNextEmployeeNumber db' = mNextEmployeeNumber db ∧
    length (mEmployees db') = length (mEmployees db) ∧
    (∀ r, getEmployee db employeeNumber = Ok r →
          employee_at db' r = fire <$> employee_at db r ∧
          (∀ r0, r0 ≠ r → employee_at db' r0 = employee_at db r0) ∧
          out = [Cout "Employee number? "; Cout "Employee ";
                 Cout (pretty employeeNumber); Cout " terminated."; Cout endl]) ∧
    (throws (getEmployee db employeeNumber) →
     db' = db ∧
     out = [Cout "Employee number? "; Cerr "Unable to terminate employee: ";
            Cerr "No employee found."; Cerr endl]).
Proof.
  unfold doFire.
  destruct (getEmployee_outcome db employeeNumber) as [(r & e & -> & He)| ->].
  - eexists _, _. split; [done|]. split; [done|].
    split; [by simpl; rewrite length_alter|]. split; [|by intros [? ?]].
    intros ? [= <-]. split; [|split; [|done]].
    + rewrite employee_at_update. by rewrite decide_True.
    + intros r0 Hne. rewrite employee_at_update. by rewrite decide_False.
  - simpl. eexists _, _. split; [done|]. do 2 (split; [done|]).
    split; [done|]. done.
Qed.

Lemma doFire_spec_witness :
  ∃ db' out,
    doFire one_john_db 1000 = Ok (db', out) ∧
    employee_at db' 0%N = Some (fire (john_doe 1000)) ∧
    out = [Cout "Employee number? "; Cout "Employee "; Cout "1000";
           Cout " terminated."; Cout endl].
Proof.
  destruct (doFire_spec one_john_db 1000) as (db' & out & Hrun & _ & _ & Hfound & _).
  destruct (Hfound 0%N eq_refl) as (Hat & _ & Hout).
  exists db', out. split; [exact Hrun|]. split; [exact Hat|exact Hout].
Defined.

(** X15. doPromote, when an employee has the number read: if the
    raised salary fits an int, the first such record gets it and every
    other record stays as it is; if it does not fit, the behaviour is
    undefined.  When no employee has the number, the database is
    unchanged and the message of the caught logic_error goes to cerr. *)
Theorem doPromote_spec (db : Database) (employeeNumber raiseAmount : Z) :
  (∀ r e, getEmployee db employeeNumber = Ok r → employee_at db r = Some e →
     (int_range (getSalary e + raiseAmount) →
      ∃ db' out,
        doPromote db employeeNumber raiseAmount = Ok (db', out) ∧
        employee_at db' r = Some (setSalary e (getSalary e + raiseAmount)) ∧
        (∀ r0, r0 ≠ r → employee_at db' r0 = employee_at db r0) ∧
        mNextEmployeeNumber db' = mNextEmployeeNumber db) ∧
     (¬ int_range (getSalary e + raiseAmount) →
      doPromote db employeeNumber raiseAmount = Undefined)) ∧
  (throws (getEmployee db employeeNumber) →
   doPromote db employeeNumber raiseAmount
   = Ok (db, [Cout "Employee number? "; Cout "How much of a raise? ";
              Cerr "Unable to promote employee: ";
              Cerr "No employee found."; Cerr endl])).
Proof.
  unfold doPromote. split.
  - intros r e Hget He. rewrite Hget, He. unfold promote. split.
    + intros Hr. rewrite int_result_Ok by done. simpl.
      eexists _, _. split; [done|]. split; [|split; [|done]].
      * by rewrite employee_at_update, decide_True, He.
      * intros r0 Hne. by rewrite employee_at_update, decide_False.
    + intros Hr. by rewrite int_result_overflow.
  - intros [exn Hexn].
    destruct (getEmployee_outcome db employeeNumber) as [(r & e & Hr & _)| ->];
      [congruence|done].
Qed.

Lemma doPromote_spec_witness :
  ∃ db' out,
    doPromote one_john_db 1000 50 = Ok (db', out) ∧
    employee_at db' 0%N = Some (setSalary (john_doe 1000) 30050) ∧
  doPromote one_john_db 1000 INT_MAX = Undefined ∧
  doPromote one_john_db 7 50
  = Ok (one_john_db, [Cout "Employee number? "; Cout "How much of a raise? ";
                      Cerr "Unable to promote employee: ";
                      Cerr "No employee found."; Cerr endl]).
Proof.
  pose proof (doPromote_spec one_john_db 1000 50) as [Hfound _].
  pose proof (doPromote_spec one_john_db 1000 INT_MAX) as [Hover _].
  pose proof (doPromote_spec one_john_db 7 50) as [_ Hnone].
  destruct (Hfound 0%N (john_doe 1000) eq_refl eq_refl) as [Hok _].
  destruct (Hover 0%N (john_doe 1000) eq_refl eq_refl) as [_ Hub].
  destruct Hok as (db' & out & Hrun & Hat & _).
  { change (INT_MIN ≤ 30000 + 50 ≤ INT_MAX). unfold INT_MIN, INT_MAX. lia. }
  exists db', out. split; [exact Hrun|]. split; [exact Hat|]. split.
  - apply Hub. change (¬ (INT_MIN ≤ 30000 + INT_MAX ≤ INT_MAX)).
    unfold INT_MIN, INT_MAX. lia.
  - apply Hnone. eexists. reflexivity.
Defined.

(** X16. Every database the menu program can hold has its employees
    numbered from 1000 in insertion order; so no two records share a
    number, and the next number is above all of them. *)
Theorem menu_run_numbered (db : Database) :
  menu_run db →
  numbered db ∧
  (∀ i j e e', mEmployees db !! i = Some e → mEmployees db !! j = Some e' →
               getEmployeeNumber e = getEmployeeNumber e' → i = j) ∧
  (∀ e, e ∈ mEmployees db →
        kFirstEmployeeNumber ≤ getEmployeeNumber e < mNextEmployeeNumber db).
Proof.
  intros Hrun.
  assert (Hnum : numbered db).
  { induction Hrun as [|db f l db' out _ IH Hstep|db n db' out _ IH Hstep
                       |db n raise db' out _ IH Hstep].
    - split; [reflexivity|]. intros i e Hi. destruct i; discriminate Hi.
    - unfold doHire in Hstep.
      destruct (addEmployee db f l) as [[r db1]| |] eqn:Hadd; simplify_eq/=.
      by eapply numbered_add.
    - unfold doFire in Hstep.
      destruct (getEmployee_outcome db n) as [(r & e & Hr & _)|Hr];
        rewrite Hr in Hstep; simplify_eq/=; [|done].
      by apply numbered_update.
    - unfold doPromote in Hstep.
      destruct (getEmployee_outcome db n) as [(r & e & Hr & He)|Hr];
        rewrite Hr in Hstep; simplify_eq/=; [|done].
      rewrite He in Hstep. unfold promote in Hstep.
      destruct (int_result (getSalary e + raise)) as [s| |]; simplify_eq/=.
      apply numbered_update; [done|]. intros e0 He0. by simplify_eq. }
  split; [done|]. destruct Hnum as [Hnext Hnum]. split.
  - intros i j e e' Hi Hj. rewrite (Hnum _ _ Hi), (Hnum _ _ Hj). lia.
  - intros e [i Hi]%list_elem_of_lookup. rewrite (Hnum _ _ Hi).
    apply lookup_lt_Some in Hi. lia.
Qed.

Lemma menu_run_numbered_witness :
  numbered one_john_db ∧
  (∀ i j e e', mEmployees one_john_db !! i = Some e →
               mEmployees one_john_db !! j = Some e' →
               getEmployeeNumber e = getEmployeeNumber e' → i = j) ∧
  (∀ e, e ∈ mEmployees one_john_db →
        kFirstEmployeeNumber ≤ getEmployeeNumber e
        < mNextEmployeeNumber one_john_db).
Proof.
  apply (menu_run_numbered one_john_db).
  apply (run_hire Database_default "John" "Doe" one_john_db
           [Cout "First name? "; Cout endl; Cout "Last name? "]).
  - apply run_start.
  - reflexivity.
Defined.

(** X17. No exception leaves addEmployee or a menu handler: whatever
    getEmployee throws is caught in doFire and in doPromote. *)
Theorem handlers_never_throw (db : Database) (firstName lastName : string)
    (employeeNumber raiseAmount : Z) (exn : exception) :
  addEmployee db firstName lastName ≠ Throw exn ∧
  doHire db firstName lastName ≠ Throw exn ∧
  doFire db employeeNumber ≠ Throw exn ∧
  doPromote db employeeNumber raiseAmount ≠ Throw exn.
Proof.
  assert (Hadd : addEmployee db firstName lastName ≠ Throw exn).
  { destruct (decide (int_range (mNextEmployeeNumber db + 1))).
    - by rewrite addEmployee_Ok.
    - unfold addEmployee. by rewrite int_result_overflow. }
  split; [done|]. split; [|split].
  - unfold doHire.
    destruct (addEmployee db firstName lastName) as [[? ?]| |]; simpl;
      [discriminate|intros [= ->]; by apply Hadd|discriminate].
  - unfold doFire.
    by destruct (getEmployee_outcome db employeeNumber) as [(r & e & -> & He)| ->].
  - unfold doPromote.
    destruct (getEmployee_outcome db employeeNumber) as [(r & e & -> & ->)| ->];
      [|done].
    unfold promote, int_result. case_decide; simpl; discriminate.
Qed.

Lemma mjoin_cons {A} (x : list A) (l : list (list A)) :
  mjoin (x :: l) = x ++ mjoin l.
Proof. done. Qed.

(** X18. The two filtered listings regroup the full listing: what
    displayCurrent writes followed by what displayFormer writes is a
    rearrangement of what displayAll writes, displayCurrent writes the
    blocks of the hired employees in insertion order and displayFormer
    those of the others. *)
Theorem listings_regroup (db : Database) :
  displayCurrent db ++ displayFormer db ≡ₚ displayAll db ∧
  displayCurrent db
  = mjoin (display <$> filter (λ e, isHired e = true) (mEmployees db)) ∧
  displayFormer db
  = mjoin (display <$> filter (λ e, isHired e = false) (mEmployees db)).
Proof.
  unfold displayCurrent, displayFormer, displayAll.
  induction (mEmployees db) as [|e l (IHp & IHc & IHf)]; [done|].
  rewrite !bind_cons. destruct (isHired e) eqn:He; cbn [negb app].
  - rewrite filter_cons_True, filter_cons_False by congruence.
    rewrite fmap_cons, mjoin_cons, <- IHc, <- IHf.
    split; [|done]. rewrite <- (assoc (++)). by rewrite IHp.
  - rewrite filter_cons_False, filter_cons_True by congruence.
    rewrite fmap_cons, mjoin_cons, <- IHc, <- IHf.
    split; [|done]. rewrite <- IHp. rewrite !(assoc (++)).
    apply Permutation_app_tail, Permutation_app_comm.
Qed.

(** ** The test drivers *)

Example EmployeeTest_runs :
  ∃ out, EmployeeTest_main = Ok (0, out) ∧
         Cout "Current Employee" ∈ out ∧ Cout "71" ∈ out ∧ Cout "51050" ∈ out.
Proof.
  eexists. split; [reflexivity|]. rewrite !list_elem_of_In. simpl. tauto.
Qed.

Example DatabaseTest_runs :
  ∃ out, DatabaseTest_main
         = Ok ({| mEmployees :=
                    [ {| mFirstName := "Greg"; mLastName := "Wallis";
                         mEmployeeNumber := 1000; mSalary := 30000;
                         mHired := false |};
                      {| mFirstName := "Marc"; mLastName := "White";
                         mEmployeeNumber := 1001; mSalary := 100000;
                         mHired := true |};
                      {| mFirstName := "John"; mLastName := "Doe";
                         mEmployeeNumber := 1002; mSalary := 11000;
                         mHired := true |} ];
                  mNextEmployeeNumber := 1003 |}, out).
Proof. eexists. reflexivity. Qed.
End RecordsFacts.
